(** * cluster-demo: anomaly scores, hashed frequency vectors and the t-digest contract

    The notebooks of the repository define a handful of Python functions
    around an imported sketch class, [detail.tdigest.TDigest]:

    - [TDigestAnomalyDetector.anomaly] (notebooks 01 and 33),
    - [extremeCDF] and [ExtremeValueAnomalyDetector.anomaly] (extreme value notebook),
    - [shingles], [hashing_frequency] and [normarray] (notebooks 05 and 33),
    - [sentences] and [sentiment_compound] (notebook 05),
    - [cleantxt], the shingle features [hsig(sh4(cleantxt(txt)))] and the
      [pdist] column (notebooks 05 and 33),
    - [predictor] (service notebook).

    Python floats are modelled by real numbers ([R]): the statements below are
    about the arithmetic the code performs, not about binary64 rounding.
    Where rounding decides, [normarray] is also given on binary64 numbers
    (module [Binary64]).  Calls that can raise in Python return a [Result].
    The sketch class itself is modelled from its specification, over the
    rationals (module [TDigest]). *)

From Stdlib Require Import QArith Qabs Qreals Lqa.
From Stdlib Require Import Reals Lra Lia ZArith List String Ascii Bool Sorted Permutation.
From Stdlib Require PrimFloat.
Import ListNotations.

Close Scope Q_scope.
Close Scope string_scope.

(** ** Outcomes of fallible Python calls *)

Inductive Error : Type :=
| ValueError          (* math domain error, negative dimensions, bad reshape *)
| ZeroDivisionError   (* integer modulo by zero, float division by zero *)
| IndexError          (* index out of bounds *)
| FloatingPointError  (* numpy wrote an infinity or a NaN into an array *)
| InvalidArgument.    (* the digest's only error category *)

Inductive Result (A : Type) : Type :=
| Ok (a : A)
| Err (e : Error).

Arguments Ok {A} a.
Arguments Err {A} e.

Definition bind {A B : Type} (r : Result A) (k : A -> Result B) : Result B :=
  match r with
  | Ok a => k a
  | Err e => Err e
  end.

Notation "x <- r ;; k" := (bind r (fun x => k))
  (at level 61, r at next level, right associativity).

(** ** The [math] module on reals *)

Module PyMath.
Local Open Scope R_scope.

(** [math.log(x)]: raises [ValueError] unless [x] is positive. *)
Definition math_log (x : R) : Result R :=
  if Rlt_dec 0 x then Ok (ln x) else Err ValueError.

(** [math.pow(x, n)] for an integer exponent [n]: [x] multiplied [n] times,
    the inverse for negative [n], and [ValueError] for [0] to a negative power.
    The power is the exact one: it is not rounded, and it neither underflows
    to [0.0] nor overflows. *)
Definition math_pow (x : R) (n : Z) : Result R :=
  match n with
  | Z0 => Ok 1
  | Zpos p => Ok (x ^ Pos.to_nat p)
  | Zneg p => if Req_dec_T x 0 then Err ValueError else Ok (/ (x ^ Pos.to_nat p))
  end.

(** [a / b] on Python floats, as in [sum(scores) / len(scores)]: a zero
    divisor raises [ZeroDivisionError]. *)
Definition float_div (a b : R) : Result R :=
  if Req_dec_T b 0 then Err ZeroDivisionError else Ok (a / b).

(** The floor [1e-100] that both detectors put under a tail probability. *)
Definition tail_floor : R := 1e-100.

(** Partial sums of the alternating series of [exp (- y)], as used for the
    numeric value of [- ln 1e-100]. *)
Definition exp_term (y : R) (i : nat) : R := y ^ i / INR (fact i).

Definition exp_neg_sum (y : R) (n : nat) : R := sum_f_R0 (tg_alt (exp_term y)) n.

End PyMath.

(** ** Notebook 01 / 33: [TDigestAnomalyDetector] *)

Module TDigestAnomalyDetector.
Local Open Scope R_scope.

Section Detector.

(** [self.td.cdf]: the sketch is imported from [detail.tdigest]; the detector
    only calls its [cdf]. *)
Variable td_cdf : R -> R.

(** [anomaly(self, x)]: the negative log of the tail probability. *)
Definition anomaly (x : R) : Result R :=
  let cdf := td_cdf x in
  let t := 1 - cdf in
  let t := Rmax t 1e-100 in
  v <- PyMath.math_log t ;; Ok (- v).

(** The test points of the notebook: [data = [0, 5, 10, 15, 20, 25]]. *)
Definition data : list R := [0; 5; 10; 15; 20; 25].

(** The [score] column: [[detector.anomaly(x) for x in data]]. *)
Definition scores : list (Result R) := map anomaly data.

End Detector.

(** The score as the specification writes it:
    [anomaly(x) = -ln(max(1 - cdf(x), 1e-100))]. *)
Definition spec_score (cdf : R -> R) (x : R) : R :=
  - ln (Rmax (1 - cdf x) 1e-100).

(** The CDF of a sketch that has seen the single sample [3]: a step at [3]. *)
Definition point_cdf (x : R) : R := if Rle_dec 3 x then 1 else 0.

End TDigestAnomalyDetector.

(** ** Extreme value notebook: [extremeCDF] and [ExtremeValueAnomalyDetector] *)

Module ExtremeValueAnomalyDetector.
Local Open Scope R_scope.

(** [extremeCDF(x, n, cdf)]: the CDF of the maximum of [n] samples. *)
Definition extremeCDF (x : R) (n : Z) (cdf : R -> R) : Result R :=
  PyMath.math_pow (cdf x) n.

Section Detector.

Variable td_cdf : R -> R.

(** [anomaly(self, xmax, n)]. *)
Definition anomaly (xmax : R) (n : Z) : Result R :=
  c <- PyMath.math_pow (td_cdf xmax) n ;;
  let p := 1 - c in
  let p := Rmax p 1e-100 in
  v <- PyMath.math_log p ;; Ok (- v).

End Detector.

(** The CDF of the uniform distribution on [[0, 20]], for the examples. *)
Definition uniform_cdf (x : R) : R :=
  if Rlt_dec x 0 then 0 else if Rlt_dec x 20 then x / 20 else 1.

End ExtremeValueAnomalyDetector.

(** ** Notebooks 05 / 33: [hashing_frequency] and [normarray] *)

Module Hashing.
Local Open Scope R_scope.

(** The argument of [hf]: a space-delimited string or a list of tokens
    (the code tests [type(words) is type("")]). *)
Inductive Words : Type :=
| RawText (s : string)
| Tokens (ws : list string).

(** [s.split(" ")]: cut at every single space; consecutive spaces give empty
    tokens and the empty string gives one empty token. *)
Fixpoint split_space (s : string) : list string :=
  match s with
  | EmptyString => [EmptyString]
  | String c rest =>
      if Ascii.eqb c " "%char then EmptyString :: split_space rest
      else match split_space rest with
           | w :: ws => String c w :: ws
           | [] => [String c EmptyString]
           end
  end.

(** Python's reading of an index into a sequence of [len] items: a negative
    index counts from the end. *)
Definition wrapped (i : Z) (len : nat) : Z :=
  if (i <? 0)%Z then (i + Z.of_nat len)%Z else i.

(** [range(n)]: empty when [n] is not positive. *)
Definition py_range (n : Z) : list Z := map Z.of_nat (seq 0 (Z.to_nat n)).

(** A slice bound of Python read against a sequence of [len] items: a
    negative bound counts from the end, and the result is clipped to
    [[0, len]]. *)
Definition slice_bound (i : Z) (len : nat) : Z :=
  Z.max 0 (Z.min (wrapped i len) (Z.of_nat len)).

(** [doc[i:j]] on strings. *)
Definition py_slice (doc : string) (i j : Z) : string :=
  let a := slice_bound i (String.length doc) in
  let b := slice_bound j (String.length doc) in
  substring (Z.to_nat a) (Z.to_nat (b - a)) doc.

(** [shingles(k)] returns the closure [kshingles]:
    [[doc[i:i + k] for i in range(len(doc) - k + 1)]]. *)
Definition shingles (k : Z) : string -> list string :=
  fun doc =>
    map (fun i => py_slice doc i (i + k))
        (py_range (Z.of_nat (String.length doc) - k + 1)).

(** [np.zeros(n, dtype=np.float32)]: [ValueError] for a negative size. *)
Definition np_zeros (n : Z) : Result (list R) :=
  if (n <? 0)%Z then Err ValueError else Ok (repeat 0 (Z.to_nat n)).

(** Python's [a % b] on integers: the sign follows the divisor, and a zero
    divisor raises. *)
Definition py_mod (a b : Z) : Result Z :=
  if (b =? 0)%Z then Err ZeroDivisionError else Ok (a mod b)%Z.

(** [v[i] += 1.0] for an index already known to be non-negative. *)
Fixpoint bump (i : nat) (v : list R) : Result (list R) :=
  match v, i with
  | [], _ => Err IndexError
  | x :: v', O => Ok ((x + 1) :: v')
  | x :: v', S i' => v'' <- bump i' v' ;; Ok (x :: v'')
  end.

(** [v[i] += 1.0] with numpy's indexing; an index outside the array raises
    [IndexError]. *)
Definition bump_at (i : Z) (v : list R) : Result (list R) :=
  let i' := wrapped i (List.length v) in
  if (i' <? 0)%Z then Err IndexError else bump (Z.to_nat i') v.

(** [np.linalg.norm(v)]: the Euclidean norm. *)
Definition sum_squares (v : list R) : R := fold_right (fun x acc => x * x + acc) 0 v.

Definition euclid_norm (v : list R) : R := sqrt (sum_squares v).

(** A numpy float scalar.  numpy does not raise when it divides by zero: it
    answers with an infinity or a NaN, and warns. *)
Inductive npfloat : Type :=
| Finite (r : R)
| PosInf
| NegInf
| NaN.

(** [a / b] for a numpy float [a] and a number [b] (the zero of the reals
    stands for [0.0]): [0 / 0] is a NaN and any other division by zero an
    infinity of the sign of [a]. *)
Definition np_div (a b : R) : npfloat :=
  if Req_dec_T b 0 then
    if Req_dec_T a 0 then NaN else if Rlt_dec 0 a then PosInf else NegInf
  else Finite (a / b).

(** [z > 0.0]: true for the positive infinity, false for a NaN. *)
Definition np_positive (z : npfloat) : bool :=
  match z with
  | Finite r => if Rlt_dec 0 r then true else false
  | PosInf => true
  | NegInf | NaN => false
  end.

(** The entries of [v] divided by a divisor that is not zero. *)
Definition scale_down (z : R) (v : list R) : list R := map (fun x => x / z) v.

(** [v /= z], in place.  Dividing by an infinity leaves zeros.  Dividing by
    zero or by a NaN writes infinities or NaNs into the array and warns (it
    raises [FloatingPointError] under [np.errstate(all='raise')]); an array of
    reals cannot hold them, so that outcome is reported as
    [FloatingPointError].  An empty array has nothing to divide. *)
Definition np_idiv (v : list R) (z : npfloat) : Result (list R) :=
  match v with
  | [] => Ok []
  | _ :: _ =>
      match z with
      | Finite r =>
          if Req_dec_T r 0 then Err FloatingPointError else Ok (scale_down r v)
      | PosInf | NegInf => Ok (map (fun _ => 0) v)
      | NaN => Err FloatingPointError
      end
  end.

(** The loop of [hf]: [for term in ...: hsig[h(term) % vecsize] += 1.0]. *)
Fixpoint count_terms (h : string -> Z) (vecsize : Z) (terms : list string)
  (hsig : list R) : Result (list R) :=
  match terms with
  | [] => Ok hsig
  | term :: rest =>
      i <- py_mod (h term) vecsize ;;
      hsig' <- bump_at i hsig ;;
      count_terms h vecsize rest hsig'
  end.

(** The last three lines of [hf]:
    [z = np.linalg.norm(hsig) / norm; if (z > 0.0): hsig /= z; return hsig]. *)
Definition normalize (norm : R) (hsig : list R) : Result (list R) :=
  let z := np_div (euclid_norm hsig) norm in
  if np_positive z then np_idiv hsig z else Ok hsig.

(** [hashing_frequency(vecsize, h, norm)] returns the closure [hf]. *)
Definition hashing_frequency (vecsize : Z) (h : string -> Z) (norm : R)
  : Words -> Result (list R) :=
  fun words =>
    let words :=
      match words with
      | RawText s => split_space s
      | Tokens ws => ws
      end in
    hsig <- np_zeros vecsize ;;
    hsig <- count_terms h vecsize
              (filter (fun w => (0 <? String.length w)%nat) words) hsig ;;
    normalize norm hsig.

(** [v.toarray().reshape(HVSIZE)]: the entries of the row, provided there
    are [HVSIZE] of them. *)
Definition reshape (n : nat) (v : list R) : Result (list R) :=
  if (List.length v =? n)%nat then Ok v else Err ValueError.

(** [normarray(v)], with the notebook's global [HVSIZE] as a parameter
    (1000 in notebook 05, 100 in notebook 33).  The argument [v] stands for
    the entries of a float row of a sparse matrix, as the vectorizer yields
    them; the result is the dense array [r], which is not such a row (it has
    no [toarray]).  Rows of another dtype are outside this model. *)
Definition normarray (HVSIZE : nat) (v : list R) : Result (list R) :=
  r <- reshape HVSIZE v ;;
  let z := Finite (euclid_norm r) in
  if np_positive z then np_idiv r z else Ok r.

(** The separator of [split]. *)
Definition space : string := String " "%char EmptyString.

(** Whether a string holds a space. *)
Fixpoint has_space (s : string) : bool :=
  match s with
  | EmptyString => false
  | String c rest => Ascii.eqb c " "%char || has_space rest
  end.

(** A string with two consecutive spaces and its tokens. *)
Definition sample_text : string := "dog  tail"%string.

(** A hash that sends every token to bucket [0]. *)
Definition const_hash (term : string) : Z := 0%Z.

End Hashing.

(** ** Notebook 05: [sentences] and [sentiment_compound] *)

Module Sentiment.
Local Open Scope R_scope.

Section Vader.

(** [re.split(sdelim, text)], the split after sentence punctuation done by
    the [re] module. *)
Variable re_split_sdelim : string -> list string.

(** [sentiment.polarity_scores(s)['compound']] of the vader library. *)
Variable compound : string -> R.

(** [sentences(text)]: the pieces longer than one character. *)
Definition sentences (text : string) : list string :=
  filter (fun s => (1 <? String.length s)%nat) (re_split_sdelim text).

(** [sum(scores)]. *)
Definition py_sum (scores : list R) : R := fold_left Rplus scores 0.

(** [sentiment_compound(text)]: the mean score of the sentences, [0.0]
    without any. *)
Definition sentiment_compound (text : string) : Result R :=
  let scores := map compound (sentences text) in
  if (List.length scores <? 1)%nat then Ok 0
  else PyMath.float_div (py_sum scores) (INR (List.length scores)).

End Vader.

(** A scorer that finds every sentence mildly positive, and the pieces of
    ["Good. Bad."], for the example. *)
Definition mild (s : string) : R := / 2.

Definition two_pieces (text : string) : list string := ["Good."; "Bad."]%string.

End Sentiment.

(** ** [normarray] on binary64 numbers

    The same function with the entries as the IEEE 754 binary64 numbers that
    numpy computes with, for what exact arithmetic cannot show. *)

Module Binary64.
Import PrimFloat.

(** [np.linalg.norm(r)] on a one-dimensional float64 array: the square root
    of the dot product of [r] with itself.  (In which order the products are
    added is up to the BLAS; the row below has one entry other than zero.) *)
Definition linalg_norm (r : list float) : float :=
  sqrt (fold_left (fun acc x => (acc + x * x)%float) r 0%float).

(** [normarray(v)] on a float64 row. *)
Definition normarray (HVSIZE : nat) (v : list float) : Result (list float) :=
  r <- (if (List.length v =? HVSIZE)%nat then Ok v else Err ValueError) ;;
  let z := linalg_norm r in
  if (0 <? z)%float then Ok (map (fun x => (x / z)%float) r) else Ok r.



(** The row [[3.0, 4.0]], and [[0.6, 0.8]] as binary64 holds them. *)
Definition sample_row : list float := [3%float; 4%float].

Definition sample_unit : list float :=
  [0x1.3333333333333p-1%float; 0x1.999999999999ap-1%float].

End Binary64.

(** ** Notebooks 05 / 33 and the service notebook: [cleantxt]

    Texts are strings over the code points below 256, which is what a
    character of this development can hold. *)

Module Cleaning.

(** The characters that [\s] matches in a [str] pattern, among the code
    points below 256: tab to carriage return, the four separators 28 to 31,
    the space, the next-line control 133 and the no-break space 160. *)
Definition is_space (c : ascii) : bool :=
  let n := N_of_ascii c in
  ((9 <=? n) && (n <=? 13) || (28 <=? n) && (n <=? 32) || (n =? 133) || (n =? 160))%N.

(** The characters that [str.lower] changes, among the code points below
    256: [A] to [Z] and the accented capitals 192 to 222, the multiplication
    sign 215 apart.  Each moves up by 32. *)
Definition is_upper (c : ascii) : bool :=
  let n := N_of_ascii c in
  ((65 <=? n) && (n <=? 90) || (192 <=? n) && (n <=? 214) || (216 <=? n) && (n <=? 222))%N.

Definition lower_char (c : ascii) : ascii :=
  if is_upper c then ascii_of_N (N_of_ascii c + 32) else c.

(** [clean.lower()]. *)
Fixpoint lower (clean : string) : string :=
  match clean with
  | EmptyString => EmptyString
  | String c rest => String (lower_char c) (lower rest)
  end.

(** [htmlbr = re.compile('<br />')]: a literal pattern. *)
Definition htmlbr : string := "<br />"%string.

(** [re.sub(htmlbr, ' ', txt)], read from left to right: where the pattern
    begins a space is written and the six characters are passed over; [skip]
    counts the characters of the match that are still to be passed over. *)
Fixpoint sub_htmlbr_from (skip : nat) (txt : string) : string :=
  match txt with
  | EmptyString => EmptyString
  | String c rest =>
      match skip with
      | S skip' => sub_htmlbr_from skip' rest
      | O =>
          if prefix htmlbr txt then String " " (sub_htmlbr_from 5 rest)
          else String c (sub_htmlbr_from 0 rest)
      end
  end.

Definition sub_htmlbr (txt : string) : string := sub_htmlbr_from 0 txt.

(** [re.sub(whitesp, ' ', clean)] for [whitesp = re.compile('\s+')]: every
    maximal run of white space becomes one space; [in_run] tells that the
    space of the current run has been written. *)
Fixpoint sub_whitesp_from (in_run : bool) (clean : string) : string :=
  match clean with
  | EmptyString => EmptyString
  | String c rest =>
      if is_space c then
        if in_run then sub_whitesp_from true rest
        else String " " (sub_whitesp_from true rest)
      else String c (sub_whitesp_from false rest)
  end.

Definition sub_whitesp (clean : string) : string := sub_whitesp_from false clean.

(** [cleantxt(txt)]. *)
Definition cleantxt (txt : string) : string :=
  let clean := sub_htmlbr txt in
  let clean := sub_whitesp clean in
  let clean := lower clean in
  clean.

(** Whether the only white space of a string is the space, never two in a
    row; [after_space] tells that the character before was a space. *)
Fixpoint single_spaced_from (after_space : bool) (s : string) : bool :=
  match s with
  | EmptyString => true
  | String c rest =>
      if is_space c then
        Ascii.eqb c " " && negb after_space && single_spaced_from true rest
      else single_spaced_from false rest
  end.

Definition single_spaced (s : string) : bool := single_spaced_from false s.

(** Whether a string holds no capital. *)
Fixpoint no_upper (s : string) : bool :=
  match s with
  | EmptyString => true
  | String c rest => negb (is_upper c) && no_upper rest
  end.

(** Whether [<br />] occurs in a string. *)
Fixpoint has_htmlbr (s : string) : bool :=
  match s with
  | EmptyString => false
  | String c rest => prefix htmlbr s || has_htmlbr rest
  end.

End Cleaning.

(** ** Notebook 05: the sentence splitter behind [sentences] *)

Module SentenceSplit.

(** The class [[.!?]] in the look-behind of [sdelim]. *)
Definition is_sdelim (c : ascii) : bool :=
  Ascii.eqb c "." || Ascii.eqb c "!" || Ascii.eqb c "?".

(** [re.split(sdelim, text)] for [sdelim = re.compile('(?<=[.!?]) *')], as
    Python 3.7 splits (the notebook's kernel is 3.7.3; from 3.7 on [split]
    also cuts at empty matches).  A match begins right after a [.], [!] or
    [?] and takes all the spaces that follow, possibly none; the text is cut
    at every match and the piece after the last one is kept even when empty.
    [eating] tells that a match is open. *)
Fixpoint split_sdelim_from (eating : bool) (text : string) : list string :=
  match text with
  | EmptyString => [EmptyString]
  | String c rest =>
      if eating && Ascii.eqb c " " then split_sdelim_from true rest
      else if is_sdelim c then String c EmptyString :: split_sdelim_from true rest
      else match split_sdelim_from false rest with
           | piece :: pieces => String c piece :: pieces
           | [] => [String c EmptyString]
           end
  end.

Definition split_sdelim (text : string) : list string := split_sdelim_from false text.

(** Whether a string holds one of [.], [!], [?]. *)
Fixpoint has_sdelim (s : string) : bool :=
  match s with
  | EmptyString => false
  | String c rest => is_sdelim c || has_sdelim rest
  end.

(** Whether a string ends with one of [.], [!], [?] and holds none before. *)
Fixpoint ends_sentence (s : string) : bool :=
  match s with
  | EmptyString => false
  | String c EmptyString => is_sdelim c
  | String c rest => negb (is_sdelim c) && ends_sentence rest
  end.

(** Whether a string begins with a space. *)
Definition starts_with_space (s : string) : bool :=
  match s with
  | String c _ => Ascii.eqb c " "
  | EmptyString => false
  end.

(** Whether a string is made of [.], [!], [?] and spaces only. *)
Fixpoint only_punctuation (s : string) : bool :=
  match s with
  | EmptyString => true
  | String c rest => (is_sdelim c || Ascii.eqb c " ") && only_punctuation rest
  end.

(** A string without its spaces. *)
Fixpoint without_spaces (s : string) : string :=
  match s with
  | EmptyString => EmptyString
  | String c rest =>
      if Ascii.eqb c " " then without_spaces rest else String c (without_spaces rest)
  end.

End SentenceSplit.

(** ** Notebook 05: the shingle features, and what the loop of [hf] counts *)

Module Features.
Import Hashing Cleaning.
Local Open Scope R_scope.

(** The tokens that the loop of [hf] visits:
    [[w for w in words if len(w) > 0]]. *)
Definition nonempty (words : list string) : list string :=
  filter (fun w => (0 <? String.length w)%nat) words.

(** How many of the terms [h] sends to bucket [j] of [vecsize]. *)
Definition bucket_count (h : string -> Z) (vecsize : Z) (terms : list string) (j : Z)
  : nat :=
  List.length (filter (fun term => (h term mod vecsize =? j)%Z) terms).

(** A token list written [k] times over. *)
Definition repeated (k : nat) (words : list string) : list string :=
  List.concat (repeat words k).

(** [sh4 = shingles(4)]. *)
Definition sh4 : string -> list string := shingles 4.

(** [hsig = hashing_frequency(512, hash, norm = 1)]; Python's [hash] is a
    parameter. *)
Definition hsig (hash : string -> Z) : Words -> Result (list R) :=
  hashing_frequency 512 hash 1.

(** The [feats] column of [feats2]:
    [lambda txt: hsig(sh4(cleantxt(txt)))]. *)
Definition feats2 (hash : string -> Z) (txt : string) : Result (list R) :=
  hsig hash (Tokens (sh4 (cleantxt txt))).

End Features.

(** ** Notebook 33 and the service notebook: [pdist] and [predictor] *)

Module Predictor.
Import Hashing Cleaning.
Local Open Scope R_scope.

(** [rows[j]] on the first axis of an array: a negative index counts from
    the end, an index outside raises [IndexError]. *)
Definition row {A : Type} (rows : list A) (j : Z) : Result A :=
  let j' := wrapped j (List.length rows) in
  if (j' <? 0)%Z then Err IndexError
  else match nth_error rows (Z.to_nat j') with
       | Some r => Ok r
       | None => Err IndexError
       end.

(** [a - b] on one-dimensional arrays: entry by entry for equal lengths, a
    one-entry array is stretched over the other, and any other pair of
    lengths raises [ValueError]. *)
Definition np_sub (a b : list R) : Result (list R) :=
  if (List.length a =? List.length b)%nat
  then Ok (map (fun xy => fst xy - snd xy) (combine a b))
  else match a, b with
       | [x], _ => Ok (map (fun y => x - y) b)
       | _, [y] => Ok (map (fun x => x - y) a)
       | _, _ => Err ValueError
       end.

Section Service.

(** The notebook's global [HVSIZE]. *)
Variable HVSIZE : nat.

(** [vectorizer.transform([xclean])] of scikit-learn's [HashingVectorizer]:
    the one row of hashed word counts. *)
Variable vectorizer_transform : string -> list R.

(** [clustering.predict([xvec])[0]] of scikit-learn's [KMeans]. *)
Variable predict : list R -> Z.

(** [clustering.cluster_centers_]. *)
Variable cluster_centers_ : list (list R).

(** The [pdist] column of notebook 33:
    [np.linalg.norm(row["feats"] - clustering.cluster_centers_[row["pred"]])]. *)
Definition pdist (feats : list R) (pred : Z) : Result R :=
  xc <- row cluster_centers_ pred ;;
  d <- np_sub feats xc ;;
  Ok (euclid_norm d).

(** [predictor(x)] of the service notebook. *)
Definition predictor (x : string) : Result R :=
  let xclean := cleantxt x in
  xvec <- normarray HVSIZE (vectorizer_transform xclean) ;;
  let xj := predict xvec in
  xc <- row cluster_centers_ xj ;;
  d <- np_sub xc xvec ;;
  Ok (euclid_norm d).

End Service.

(** A vectorizer, a cluster assignment and one centre in two dimensions, for
    the examples. *)
Definition two_counts (xclean : string) : list R := [3; 4].

Definition first_cluster (xvec : list R) : Z := 0%Z.

Definition one_centre : list (list R) := [[1; 0]].

End Predictor.

(** ** The sketch behind the notebooks: [detail.tdigest.TDigest]

    The notebooks import [TDigest] and call [TDigest(compression = ...)],
    [update], [cdf] and [cdfi]; they do not show [detail/tdigest.py] itself.
    The definitions of this module follow sections 3, 4.1 and 7 of the
    specification, and are parametric in what its section 9 leaves open.
    Values are rationals, so that every definition computes; [float64] adds
    the non-finite inputs that the operations must reject. *)

Module TDigest.
Local Open Scope Q_scope.

(** Modelled from the spec: a [float64] argument of the absent [TDigest]
    methods, a finite value or one of the non-finite ones. *)
Inductive float64 : Type :=
| Finite (q : Q)
| PosInf
| NegInf
| NaN.

(** Modelled from the spec: the absent class's Centroid, "a pair
    [(mean, weight)]". *)
Record Centroid : Type := mkCentroid { mean : Q; weight : Q }.

(** Modelled from the spec: the absent class's state, "an ordered sequence of
    Centroids" together with the compression parameter it was created with. *)
Record Digest : Type := mkDigest { compression : Q; centroids : list Centroid }.

(** Modelled from the spec: what section 9 of the specification leaves open
    about the absent [update].  [size_bound delta q N] is the largest weight a
    centroid at cumulative fraction [q] may reach in a digest of total weight
    [N]; [prefer_left l r] breaks the tie between two equidistant centroids
    that both have room; [threshold delta] is the centroid count past which the
    digest is rebuilt. *)
Record Policy : Type := mkPolicy {
  size_bound : Q -> Q -> Q -> Q;
  prefer_left : Centroid -> Centroid -> bool;
  threshold : Q -> nat
}.

(** [x < y] on rationals, as a boolean. *)
Definition Qltb (x y : Q) : bool :=
  match x ?= y with
  | Lt => true
  | _ => false
  end.

(** Modelled from the spec: "Total weight [N] = sum of [weight_i]" of the
    absent class. *)
Definition total_weight (cs : list Centroid) : Q :=
  fold_right (fun c acc => weight c + acc) 0 cs.

(** Modelled from the spec: the absent class's incremental mean,
    [mean' = mean + (x - mean) * w_x / (weight + w_x)] and
    [weight' = weight + w_x]. *)
Definition absorb_into (c : Centroid) (x w : Q) : Centroid :=
  {| mean := mean c + (x - mean c) * w / (weight c + w);
     weight := weight c + w |}.

Section Absorption.

Variable P : Policy.

(** The digest's compression and its total weight before the insertion. *)
Variables delta N : Q.

(** Modelled from the spec: step 2 of the absent [update], "post-absorption
    weight does not exceed the size bound dictated by compression and its
    quantile position"; [cum] is the cumulative weight up to and including
    [c]. *)
Definition fits (cum : Q) (c : Centroid) (w : Q) : bool :=
  Qle_bool (weight c + w) (size_bound P delta (cum / N) N).

(** Modelled from the spec: steps 1 to 3 of the absent [update] for a value
    strictly between two neighbours [l] and [r].  The nearer neighbour is the
    candidate; on equal distance both are, and [prefer_left] decides when both
    have room.  Without a candidate that has room a new centroid is
    inserted between them. *)
Definition between (cum : Q) (l r : Centroid) (x w : Q) : list Centroid :=
  let fl := fits cum l w in
  let fr := fits (cum + weight r) r w in
  let take_l := [absorb_into l x w; r] in
  let take_r := [l; absorb_into r x w] in
  let fresh := [l; mkCentroid x w; r] in
  match (x - mean l) ?= (mean r - x) with
  | Lt => if fl then take_l else fresh
  | Gt => if fr then take_r else fresh
  | Eq =>
      match fl, fr with
      | true, true => if prefer_left P l r then take_l else take_r
      | true, false => take_l
      | false, true => take_r
      | false, false => fresh
      end
  end.

(** Modelled from the spec: the walk of the absent [update] along the sorted
    sequence, for a value above [mean l]; [cum] is the cumulative weight
    through [l].  A value equal to a mean is merged into that centroid
    whatever the size bound says: section 3 has "ties are merged", and step 3
    applied to such a value would put two equal means side by side. *)
Fixpoint place_after (cum : Q) (l : Centroid) (rest : list Centroid) (x w : Q)
  : list Centroid :=
  match rest with
  | [] => if fits cum l w then [absorb_into l x w] else [l; mkCentroid x w]
  | r :: rest' =>
      match x ?= mean r with
      | Gt => l :: place_after (cum + weight r) r rest' x w
      | Eq => l :: absorb_into r x w :: rest'
      | Lt => between cum l r x w ++ rest'
      end
  end.

(** Modelled from the spec: steps 1 to 3 of the absent [update] on the whole
    sequence. *)
Definition place (cs : list Centroid) (x w : Q) : list Centroid :=
  match cs with
  | [] => [mkCentroid x w]
  | c :: rest =>
      match x ?= mean c with
      | Lt => if fits (weight c) c w then absorb_into c x w :: rest
              else mkCentroid x w :: cs
      | Eq => absorb_into c x w :: rest
      | Gt => place_after (weight c) c rest x w
      end
  end.

End Absorption.

(** Modelled from the spec: steps 1 to 3 of the absent [update], with the
    total weight read off the sequence. *)
Definition absorb (P : Policy) (delta : Q) (cs : list Centroid) (x w : Q)
  : list Centroid :=
  place P delta (total_weight cs) cs x w.

(** Modelled from the spec: step 4 of the absent [update], "the digest is
    rebuilt by re-absorbing all existing centroids in a [...] mean-sorted order
    into a fresh [...] centroid set". *)
Definition rebuild (P : Policy) (delta : Q) (cs : list Centroid) : list Centroid :=
  fold_left (fun acc c => absorb P delta acc (mean c) (weight c)) cs [].

(** Modelled from the spec: the effect of the absent [update] on the
    sequence, absorption followed by the rebuild "when the number of centroids
    grows past a threshold". *)
Definition insert (P : Policy) (delta : Q) (cs : list Centroid) (x w : Q)
  : list Centroid :=
  let cs' := absorb P delta cs x w in
  if (threshold P delta <? List.length cs')%nat then rebuild P delta cs' else cs'.

(** Modelled from the spec: the absent [new(compression)], "Fails with
    [InvalidArgument] if compression is non-positive". *)
Definition new (compression : float64) : Result Digest :=
  match compression with
  | Finite delta =>
      if Qltb 0 delta then Ok (mkDigest delta []) else Err InvalidArgument
  | _ => Err InvalidArgument
  end.

(** Modelled from the spec: the absent [update(x, weight)], returning the
    outcome and the state after the call; "[weight > 0]; [x] finite". *)
Definition update (P : Policy) (d : Digest) (x w : float64) : Result unit * Digest :=
  match x, w with
  | Finite xv, Finite wv =>
      if Qltb 0 wv
      then (Ok tt, mkDigest (compression d)
                     (insert P (compression d) (centroids d) xv wv))
      else (Err InvalidArgument, d)
  | _, _ => (Err InvalidArgument, d)
  end.

(** Modelled from the spec: the absent [update] with its default weight
    [1.0]. *)
Definition update1 (P : Policy) (d : Digest) (x : float64) : Result unit * Digest :=
  update P d x (Finite 1).

(** Modelled from the spec: the interpolation of the absent [cdf] between
    bracketing centroids, for [mean c <= x]; [cum] is the cumulative weight
    through [c]. *)
Fixpoint cdf_walk (N cum : Q) (c : Centroid) (rest : list Centroid) (x : Q) : Q :=
  match rest with
  | [] => cum / N
  | c' :: rest' =>
      if Qltb x (mean c')
      then (cum + weight c' * ((x - mean c) / (mean c' - mean c))) / N
      else cdf_walk N (cum + weight c') c' rest' x
  end.

(** Modelled from the spec: the absent [cdf(x)]: [0] below the lowest mean,
    [1] above the highest, linear interpolation of the cumulative weight in
    between, normalized by the total weight.  The specification gives no case
    for an empty digest; the model answers [0]. *)
Definition cdf (d : Digest) (x : Q) : Q :=
  match centroids d with
  | [] => 0
  | c :: rest =>
      if Qltb x (mean c) then 0
      else if Qltb (mean (last rest c)) x then 1
      else cdf_walk (total_weight (centroids d)) (weight c) c rest x
  end.

(** Modelled from the spec: the inverse interpolation of the absent
    [quantile], for a target cumulative weight [t >= cum]. *)
Fixpoint quantile_walk (t cum : Q) (c : Centroid) (rest : list Centroid) : Q :=
  match rest with
  | [] => mean c
  | c' :: rest' =>
      if Qle_bool t (cum + weight c')
      then mean c + (mean c' - mean c) * ((t - cum) / weight c')
      else quantile_walk t (cum + weight c') c' rest'
  end.

(** Modelled from the spec: the value the absent [quantile] returns for a
    valid [q], "inverse linear interpolation over the same centroid boundaries
    used by [cdf]"; [0] for an empty digest. *)
Definition quantile_value (cs : list Centroid) (q : Q) : Q :=
  match cs with
  | [] => 0
  | c :: rest =>
      let t := q * total_weight cs in
      if Qle_bool t (weight c) then mean c else quantile_walk t (weight c) c rest
  end.

(** Modelled from the spec: the absent [quantile(q)] (the notebooks' [cdfi]),
    "[0 <= q <= 1], fails with [InvalidArgument] otherwise". *)
Definition quantile (d : Digest) (q : float64) : Result Q :=
  match q with
  | Finite qv =>
      if Qle_bool 0 qv && Qle_bool qv 1
      then Ok (quantile_value (centroids d) qv)
      else Err InvalidArgument
  | _ => Err InvalidArgument
  end.

(** Modelled from the spec: the order in which the absent [merge] re-absorbs
    the other digest's centroids, "typically weight-descending". *)
Fixpoint insert_by_weight (c : Centroid) (cs : list Centroid) : list Centroid :=
  match cs with
  | [] => [c]
  | c' :: rest =>
      if Qle_bool (weight c') (weight c) then c :: cs
      else c' :: insert_by_weight c rest
  end.

Definition weight_descending (cs : list Centroid) : list Centroid :=
  fold_right insert_by_weight [] cs.

(** Modelled from the spec: the absent [merge(other)], "each centroid of
    [other], weighted, is re-absorbed into a copy of [self] following the same
    absorption algorithm as [update]". *)
Definition merge (P : Policy) (self other : Digest) : Digest :=
  mkDigest (compression self)
    (fold_left (fun acc c => insert P (compression self) acc (mean c) (weight c))
       (weight_descending (centroids other)) (centroids self)).

(** Modelled from the spec: the calls a client can make on the absent class
    after construction, and what each one answers. *)
Inductive Call : Type :=
| CallUpdate (x w : float64)
| CallQuantile (q : float64)
| CallCdf (x : Q).

Inductive Reply : Type :=
| Done
| Value (v : Q)
| Failed (e : Error).

(** Modelled from the spec: one call on the absent class, as a step from
    state to reply and state; the queries leave the state alone. *)
Definition step (P : Policy) (d : Digest) (c : Call) : Reply * Digest :=
  match c with
  | CallUpdate x w =>
      match update P d x w with
      | (Ok _, d') => (Done, d')
      | (Err e, d') => (Failed e, d')
      end
  | CallQuantile q =>
      match quantile d q with
      | Ok v => (Value v, d)
      | Err e => (Failed e, d)
      end
  | CallCdf x => (Value (cdf d x), d)
  end.

(** Modelled from the spec: a run of calls on the absent class, collecting
    the replies. *)
Fixpoint run (P : Policy) (d : Digest) (calls : list Call) : list Reply * Digest :=
  match calls with
  | [] => ([], d)
  | c :: rest =>
      let (r, d') := step P d c in
      let (rs, d'') := run P d' rest in
      (r :: rs, d'')
  end.

(** Modelled from the spec: the malformed inputs of section 7, "non-finite or
    out-of-domain scalar input". *)
Definition well_formed_value (x : float64) : bool :=
  match x with
  | Finite _ => true
  | _ => false
  end.

Definition positive (w : float64) : bool :=
  match w with
  | Finite wv => Qltb 0 wv
  | _ => false
  end.

Definition unit_interval (q : float64) : bool :=
  match q with
  | Finite qv => Qle_bool 0 qv && Qle_bool qv 1
  | _ => false
  end.

Definition malformed (c : Call) : bool :=
  match c with
  | CallUpdate x w => negb (well_formed_value x && positive w)
  | CallQuantile q => negb (unit_interval q)
  | CallCdf _ => false
  end.

(** Modelled from the spec: the states of the absent class that a client can
    reach: created by [new], then changed by [update] and [merge]. *)
Inductive reachable (P : Policy) : Digest -> Prop :=
| reach_new (delta : float64) (d : Digest) :
    new delta = Ok d -> reachable P d
| reach_update (d : Digest) (x w : float64) :
    reachable P d -> reachable P (snd (update P d x w))
| reach_merge (d1 d2 : Digest) :
    reachable P d1 -> reachable P d2 -> reachable P (merge P d1 d2).

(** Modelled from the spec: one instance of the open choices, the size bound
    [4 N delta q (1 - q)] of the t-digest literature, "prefer the centroid with
    lower current weight" on a tie, and a rebuild past [20] centroids. *)
Definition sample_policy : Policy :=
  {| size_bound := fun delta q N => 4 * N * delta * q * (1 - q);
     prefer_left := fun l r => Qle_bool (weight l) (weight r);
     threshold := fun _ => 20%nat |}.

(** Feeding a list of finite values with unit weight to a digest. *)
Definition feed (P : Policy) (d : Digest) (xs : list Q) : Digest :=
  fold_left (fun acc x => snd (update1 P acc (Finite x))) xs d.

(** The round trip as the specification words it, read as a property of a
    compression [delta] and a tolerance [tol]: in every reachable state of that
    compression and for every [q] away from [0] and [1] (here: between [1/4]
    and [3/4]), [cdf(quantile(q))] is within [tol] of [q]. *)
Definition round_trip_within (P : Policy) (delta tol : Q) : Prop :=
  forall (d : Digest) (q v : Q),
    reachable P d -> compression d == delta ->
    1 # 4 <= q -> q <= 3 # 4 ->
    quantile d (Finite q) = Ok v ->
    Qabs (cdf d v - q) <= tol.

(** Well-formed sequences: positive weights, strictly ascending means. *)
Definition all_positive (cs : list Centroid) : Prop :=
  Forall (fun c => 0 < weight c) cs.

(** [above lo cs]: the first mean of [cs], if any, is greater than [lo]. *)
Definition above (lo : Q) (cs : list Centroid) : Prop :=
  match cs with
  | [] => True
  | c :: _ => lo < mean c
  end.

(** Each mean is below the next one. *)
Fixpoint ascending (cs : list Centroid) : Prop :=
  match cs with
  | [] => True
  | c :: rest => above (mean c) rest /\ ascending rest
  end.

Definition well_formed (cs : list Centroid) : Prop :=
  all_positive cs /\ ascending cs.

(** [head_from m cs]: [cs] is not empty and its first mean is at least [m]. *)
Definition head_from (m : Q) (cs : list Centroid) : Prop :=
  match cs with
  | [] => False
  | c :: _ => m <= mean c
  end.

(** The digest the examples below are run on: [1.0, 3.0, 2.0, 2.0] fed to a
    new digest of compression [0.1]. *)
Definition sample_digest : Digest :=
  feed sample_policy (mkDigest (1 # 10) []) [1; 3; 2; 2].

(** Whether a reply is an error. *)
Definition is_failure (r : Reply) : bool :=
  match r with
  | Failed _ => true
  | _ => false
  end.

End TDigest.

(** * Proofs *)

Module PyMathFacts.
Import PyMath.
Local Open Scope R_scope.

Lemma tail_floor_pos : 0 < tail_floor.
Proof. unfold tail_floor. lra. Qed.

Lemma exp_term_decreasing (y : R) : 0 <= y <= 1 -> Un_decreasing (exp_term y).
Proof.
  intros [Hy0 Hy1] n. unfold exp_term.
  assert (Hn : 0 < INR (fact n)) by apply INR_fact_lt_0.
  assert (Hs : 0 < INR (fact (S n))) by apply INR_fact_lt_0.
  assert (Hp : 0 <= y ^ n) by (apply pow_le; exact Hy0).
  assert (Hle : INR (fact n) <= INR (fact (S n)))
    by (apply le_INR, fact_le; lia).
  simpl pow.
  apply Rle_trans with (y ^ n / INR (fact (S n))).
  - apply Rmult_le_compat_r; [left; apply Rinv_0_lt_compat; exact Hs |].
    generalize dependent (y ^ n). intros p Hp. nra.
  - apply Rmult_le_compat_l; [exact Hp | apply Rinv_le_contravar; assumption].
Qed.

Lemma exp_neg_sum_cv (y : R) : Un_cv (exp_neg_sum y) (exp (- y)).
Proof.
  unfold exp. destruct (exist_exp (- y)) as [l Hl]. simpl.
  intros eps Heps. destruct (Hl eps Heps) as [N HN].
  exists N. intros n Hn. specialize (HN n Hn).
  replace (exp_neg_sum y n)
    with (sum_f_R0 (fun i => / INR (fact i) * (- y) ^ i) n); [exact HN |].
  apply sum_eq. intros i _. unfold tg_alt, exp_term.
  replace (- y) with (-1 * y) by ring. rewrite Rpow_mult_distr. field.
  apply INR_fact_neq_0.
Qed.

(** Two-sided bound on [exp (- y)] for [0 <= y <= 1]. *)
Lemma exp_neg_bounds (y : R) (N : nat) :
  0 <= y <= 1 ->
  exp_neg_sum y (S (2 * N)) <= exp (- y) <= exp_neg_sum y (2 * N).
Proof.
  intros Hy. unfold exp_neg_sum.
  apply alternated_series_ineq.
  - apply exp_term_decreasing; exact Hy.
  - exact (cv_speed_pow_fact y).
  - exact (exp_neg_sum_cv y).
Qed.

Ltac fact_to_Z :=
  repeat match goal with
  | |- context [INR (fact ?k)] =>
      let v := eval vm_compute in (Z.of_nat (fact k)) in
      replace (INR (fact k)) with (IZR v)
        by (rewrite INR_IZR_INZ; apply f_equal; vm_compute; reflexivity)
  end.

Ltac eval_exp_neg_sum :=
  unfold exp_neg_sum; cbn [Nat.mul Nat.add sum_f_R0];
  unfold tg_alt, exp_term; fact_to_Z.

Lemma exp_neg_quadruple (y : R) : exp (- (4 * y)) = exp (- y) ^ 4.
Proof.
  replace (- (4 * y)) with (- y + - y + (- y + - y)) by ring.
  rewrite !exp_plus. ring.
Qed.

Lemma exp_above_10 : 10 < exp 2.30259.
Proof.
  pose proof (exp_neg_bounds (230259 / 400000) 4 ltac:(lra)) as [_ Hup].
  pose proof (exp_pos (- (230259 / 400000))) as Hpos.
  assert (Hsum : exp_neg_sum (230259 / 400000) (2 * 4) ^ 4 < / 10)
    by (eval_exp_neg_sum; lra).
  assert (Hpow : exp (- (230259 / 400000)) ^ 4
                 <= exp_neg_sum (230259 / 400000) (2 * 4) ^ 4)
    by (apply pow_incr; lra).
  rewrite <- exp_neg_quadruple in Hpow.
  replace (4 * (230259 / 400000)) with 2.30259 in Hpow by lra.
  rewrite exp_Ropp in Hpow.
  pose proof (exp_pos 2.30259) as He.
  destruct (Rlt_le_dec 10 (exp 2.30259)) as [Hlt | Hle]; [exact Hlt |].
  pose proof (Rinv_le_contravar _ _ He Hle). lra.
Qed.

Lemma exp_below_10 : exp 2.30258 < 10.
Proof.
  pose proof (exp_neg_bounds (230258 / 400000) 4 ltac:(lra)) as [Hlo _].
  assert (Hsum : / 10 < exp_neg_sum (230258 / 400000) (S (2 * 4)) ^ 4)
    by (eval_exp_neg_sum; lra).
  assert (Hs0 : 0 <= exp_neg_sum (230258 / 400000) (S (2 * 4)))
    by (eval_exp_neg_sum; lra).
  assert (Hpow : exp_neg_sum (230258 / 400000) (S (2 * 4)) ^ 4
                 <= exp (- (230258 / 400000)) ^ 4)
    by (apply pow_incr; lra).
  rewrite <- exp_neg_quadruple in Hpow.
  replace (4 * (230258 / 400000)) with 2.30258 in Hpow by lra.
  rewrite exp_Ropp in Hpow.
  pose proof (exp_pos 2.30258) as He.
  destruct (Rlt_le_dec (exp 2.30258) 10) as [Hlt | Hle]; [exact Hlt |].
  pose proof (Rinv_le_contravar 10 _ ltac:(lra) Hle). lra.
Qed.

Lemma ln_10_bounds : 2.30258 < ln 10 < 2.30259.
Proof.
  split; apply exp_lt_inv; rewrite exp_ln by lra.
  - exact exp_below_10.
  - exact exp_above_10.
Qed.

Lemma ln_tail_floor : ln tail_floor = - (100 * ln 10).
Proof.
  unfold tail_floor. replace 1e-100 with (/ 10 ^ 100) by lra.
  rewrite ln_Rinv by (apply pow_lt; lra).
  rewrite ln_pow by lra.
  replace (INR 100) with 100 by (rewrite INR_IZR_INZ; reflexivity).
  reflexivity.
Qed.

(** [- ln 1e-100] is 230.26 to two decimals. *)
Lemma saturation_value : 230.258 < - ln tail_floor < 230.259.
Proof. rewrite ln_tail_floor. pose proof ln_10_bounds. lra. Qed.

Lemma tail_floor_lt_1 : tail_floor < 1.
Proof. unfold tail_floor. lra. Qed.

Lemma math_log_pos (x : R) : 0 < x -> math_log x = Ok (ln x).
Proof. intros Hx. unfold math_log. destruct (Rlt_dec 0 x); [reflexivity | contradiction]. Qed.

Lemma Rmax_floor_pos (t : R) : 0 < Rmax t tail_floor.
Proof.
  pose proof tail_floor_pos. pose proof (Rmax_r t tail_floor). lra.
Qed.

(** [ln] is monotone on the positive reals (non-strict form). *)
Lemma ln_le_mono (x y : R) : 0 < x -> x <= y -> ln x <= ln y.
Proof.
  intros Hx [Hlt | Heq].
  - left. apply ln_increasing; assumption.
  - subst. right. reflexivity.
Qed.

(** The score [- ln (max t floor)] as a function of the tail [t]:
    antitone, never above [- ln floor], and non-negative for [t <= 1]. *)
Lemma score_antitone (t1 t2 : R) :
  t1 <= t2 -> - ln (Rmax t2 tail_floor) <= - ln (Rmax t1 tail_floor).
Proof.
  intros Hle. apply Ropp_le_contravar, ln_le_mono.
  - apply Rmax_floor_pos.
  - apply Rle_max_compat_r. exact Hle.
Qed.

Lemma score_upper (t : R) : - ln (Rmax t tail_floor) <= - ln tail_floor.
Proof.
  apply Ropp_le_contravar, ln_le_mono; [apply tail_floor_pos | apply Rmax_r].
Qed.

Lemma score_nonneg (t : R) : t <= 1 -> 0 <= - ln (Rmax t tail_floor).
Proof.
  intros Ht. rewrite <- Ropp_0, <- ln_1.
  apply Ropp_le_contravar, ln_le_mono; [apply Rmax_floor_pos |].
  apply Rmax_lub; [exact Ht | left; apply tail_floor_lt_1].
Qed.

Lemma score_saturated (t : R) : t <= tail_floor -> - ln (Rmax t tail_floor) = - ln tail_floor.
Proof. intros Ht. rewrite Rmax_right by exact Ht. reflexivity. Qed.

End PyMathFacts.

(** ** [TDigestAnomalyDetector.anomaly] *)

Module TDigestAnomalyFacts.
Import PyMath PyMathFacts TDigestAnomalyDetector.
Local Open Scope R_scope.

Lemma anomaly_eq_spec (td_cdf : R -> R) (x : R) :
  anomaly td_cdf x = Ok (spec_score td_cdf x).
Proof.
  unfold anomaly, spec_score. fold tail_floor.
  rewrite math_log_pos by apply Rmax_floor_pos. reflexivity.
Qed.

Lemma spec_score_mono (td_cdf : R -> R) :
  (forall x y, x <= y -> td_cdf x <= td_cdf y) ->
  forall x y, x <= y -> spec_score td_cdf x <= spec_score td_cdf y.
Proof.
  intros Hmono x y Hxy. unfold spec_score. fold tail_floor.
  apply score_antitone. specialize (Hmono x y Hxy). lra.
Qed.

Lemma point_cdf_mono (x y : R) : x <= y -> point_cdf x <= point_cdf y.
Proof.
  intros Hxy. unfold point_cdf.
  destruct (Rle_dec 3 x), (Rle_dec 3 y); lra.
Qed.

Lemma point_cdf_range (x : R) : 0 <= point_cdf x <= 1.
Proof. unfold point_cdf. destruct (Rle_dec 3 x); lra. Qed.

(** C4. For a sketch whose [cdf] is monotone with values in [[0,1]] (the
    contract of the imported [TDigest]), [anomaly] returns exactly
    [-ln(max(1 - cdf(x), 1e-100))] and never raises; the scores are
    non-decreasing in [x], in particular over the notebook's points
    [0, 5, 10, 15, 20, 25]; no score is negative; and from the first point
    where [cdf] is [1] on, the score is the constant [-ln 1e-100], which lies
    between 230.258 and 230.259. *)
Theorem anomaly_score_properties (td_cdf : R -> R)
  (Hmono : forall x y, x <= y -> td_cdf x <= td_cdf y)
  (Hrange : forall x, 0 <= td_cdf x <= 1) :
  (forall x, anomaly td_cdf x = Ok (spec_score td_cdf x)) /\
  (forall x y, x <= y -> spec_score td_cdf x <= spec_score td_cdf y) /\
  scores td_cdf = map (fun x => Ok (spec_score td_cdf x)) data /\
  StronglySorted Rle (map (spec_score td_cdf) data) /\
  (forall x, 0 <= spec_score td_cdf x <= - ln tail_floor) /\
  (forall x, td_cdf x = 1 ->
     forall y, x <= y -> anomaly td_cdf y = Ok (- ln tail_floor)) /\
  230.258 < - ln tail_floor < 230.259.
Proof.
  pose proof (spec_score_mono td_cdf Hmono) as Hscore.
  repeat split.
  - intros x. apply anomaly_eq_spec.
  - exact Hscore.
  - unfold scores, data. cbn [map]. rewrite !anomaly_eq_spec. reflexivity.
  - unfold data. cbn [map].
    repeat (apply SSorted_cons;
            [| repeat apply Forall_cons; try apply Forall_nil; apply Hscore; lra]).
    apply SSorted_nil.
  - unfold spec_score. fold tail_floor. apply score_nonneg.
    specialize (Hrange x). lra.
  - unfold spec_score. fold tail_floor. apply score_upper.
  - intros x Hx y Hxy. rewrite anomaly_eq_spec. f_equal.
    unfold spec_score. fold tail_floor. apply score_saturated.
    pose proof (Hmono x y Hxy). pose proof (Hrange y). pose proof tail_floor_pos. lra.
  - apply saturation_value.
  - apply saturation_value.
Qed.

Lemma anomaly_score_properties_witness :
  (forall x y, x <= y -> point_cdf x <= point_cdf y) /\
  (forall x, 0 <= point_cdf x <= 1) /\
  anomaly point_cdf 5 = Ok (- ln tail_floor) /\
  StronglySorted Rle (map (spec_score point_cdf) data).
Proof.
  split; [exact point_cdf_mono |].
  split; [exact point_cdf_range |].
  destruct (anomaly_score_properties point_cdf point_cdf_mono point_cdf_range)
    as (_ & _ & _ & Hsorted & _ & Hsat & _).
  split; [| exact Hsorted].
  apply (Hsat 3); [| lra].
  unfold point_cdf. destruct (Rle_dec 3 3); [reflexivity | lra].
Defined.

End TDigestAnomalyFacts.

(** ** [extremeCDF] and [ExtremeValueAnomalyDetector.anomaly] *)

Module ExtremeValueFacts.
Import PyMath PyMathFacts ExtremeValueAnomalyDetector.
Local Open Scope R_scope.

Lemma math_pow_pos (c : R) (n : Z) :
  (1 <= n)%Z -> math_pow c n = Ok (c ^ Z.to_nat n).
Proof.
  intros Hn. destruct n as [| p | p]; try lia. reflexivity.
Qed.

(** Powers of a number in [[0,1]] decrease with the exponent. *)
Lemma pow_antitone (c : R) (m n : nat) :
  0 <= c <= 1 -> (m <= n)%nat -> c ^ n <= c ^ m.
Proof.
  intros Hc Hmn. replace n with (m + (n - m))%nat by lia.
  rewrite pow_add.
  assert (H0 : 0 <= c ^ m) by (apply pow_le; lra).
  assert (H1 : c ^ (n - m) <= 1).
  { rewrite <- (pow1 (n - m)). apply pow_incr. exact Hc. }
  assert (H2 : 0 <= c ^ (n - m)) by (apply pow_le; lra).
  nra.
Qed.

Lemma pow_unit_range (c : R) (n : nat) : 0 <= c <= 1 -> 0 <= c ^ n <= 1.
Proof.
  intros Hc. split; [apply pow_le; lra |].
  rewrite <- (pow1 n). apply pow_incr. exact Hc.
Qed.

Lemma anomaly_value (td_cdf : R -> R) (xmax : R) (n : Z) :
  (1 <= n)%Z ->
  anomaly td_cdf xmax n
  = Ok (- ln (Rmax (1 - td_cdf xmax ^ Z.to_nat n) tail_floor)).
Proof.
  intros Hn. unfold anomaly. fold tail_floor.
  rewrite math_pow_pos by exact Hn. cbn [bind].
  rewrite math_log_pos by apply Rmax_floor_pos. reflexivity.
Qed.

(** C9. With [0 <= cdf(xmax) <= 1] and sample sizes [1 <= n1 <= n2], both
    calls of [anomaly] return, each score is
    [-ln(max(1 - extremeCDF(xmax, n, cdf), 1e-100))], the score for [n2] is at
    most the score for [n1], and both lie in [[0, -ln 1e-100]]. *)
Theorem extreme_anomaly_antitone_in_n (td_cdf : R -> R) (xmax : R) (n1 n2 : Z)
  (Hc : 0 <= td_cdf xmax <= 1) (Hn : (1 <= n1 <= n2)%Z) :
  exists c1 c2 a1 a2 : R,
    extremeCDF xmax n1 td_cdf = Ok c1 /\
    extremeCDF xmax n2 td_cdf = Ok c2 /\
    anomaly td_cdf xmax n1 = Ok a1 /\
    anomaly td_cdf xmax n2 = Ok a2 /\
    a1 = - ln (Rmax (1 - c1) tail_floor) /\
    a2 = - ln (Rmax (1 - c2) tail_floor) /\
    a2 <= a1 /\
    0 <= a2 /\ a1 <= - ln tail_floor.
Proof.
  exists (td_cdf xmax ^ Z.to_nat n1), (td_cdf xmax ^ Z.to_nat n2).
  eexists. eexists.
  unfold extremeCDF.
  rewrite !math_pow_pos by lia.
  rewrite !anomaly_value by lia.
  repeat split.
  - apply score_antitone.
    assert (td_cdf xmax ^ Z.to_nat n2 <= td_cdf xmax ^ Z.to_nat n1)
      by (apply pow_antitone; [exact Hc | lia]).
    lra.
  - apply score_nonneg.
    pose proof (pow_unit_range (td_cdf xmax) (Z.to_nat n2) Hc). lra.
  - apply score_upper.
Qed.

Lemma uniform_cdf_at_10 : uniform_cdf 10 = / 2.
Proof.
  unfold uniform_cdf.
  destruct (Rlt_dec 10 0) as [H | _]; [lra |].
  destruct (Rlt_dec 10 20) as [_ | H]; lra.
Qed.

Lemma extreme_anomaly_antitone_in_n_witness :
  0 <= uniform_cdf 10 <= 1 /\ (1 <= 100 <= 1000)%Z /\
  exists a1 a2 : R,
    anomaly uniform_cdf 10 100 = Ok a1 /\
    anomaly uniform_cdf 10 1000 = Ok a2 /\ a2 <= a1.
Proof.
  assert (Hc : 0 <= uniform_cdf 10 <= 1) by (rewrite uniform_cdf_at_10; lra).
  assert (Hn : (1 <= 100 <= 1000)%Z) by lia.
  split; [exact Hc |]. split; [exact Hn |].
  destruct (extreme_anomaly_antitone_in_n uniform_cdf 10 100 1000 Hc Hn)
    as (c1 & c2 & a1 & a2 & _ & _ & H1 & H2 & _ & _ & Hle & _).
  exists a1, a2. repeat split; assumption.
Defined.

(** X6. For a monotone [cdf] with values in [[0,1]] and a sample size [n >= 1],
    [extremeCDF(x, n, cdf)] returns, for every [x], a value in [[0,1]], and
    that value is monotone in [x]: the extreme value distribution is a
    distribution function again. *)
Theorem extremeCDF_is_a_cdf (cdf : R -> R) (n : Z)
  (Hmono : forall x y, x <= y -> cdf x <= cdf y)
  (Hrange : forall x, 0 <= cdf x <= 1) (Hn : (1 <= n)%Z) :
  (forall x, exists c, extremeCDF x n cdf = Ok c /\ 0 <= c <= 1) /\
  (forall x y c1 c2,
     x <= y -> extremeCDF x n cdf = Ok c1 -> extremeCDF y n cdf = Ok c2 ->
     c1 <= c2).
Proof.
  unfold extremeCDF. split.
  - intros x. rewrite math_pow_pos by exact Hn. eexists. split; [reflexivity |].
    apply pow_unit_range. apply Hrange.
  - intros x y c1 c2 Hxy. rewrite !math_pow_pos by exact Hn.
    intros [= <-] [= <-]. apply pow_incr.
    split; [apply Hrange | apply Hmono; exact Hxy].
Qed.

Lemma uniform_cdf_range (x : R) : 0 <= uniform_cdf x <= 1.
Proof.
  unfold uniform_cdf.
  destruct (Rlt_dec x 0); [lra |]. destruct (Rlt_dec x 20); lra.
Qed.

Lemma uniform_cdf_mono (x y : R) : x <= y -> uniform_cdf x <= uniform_cdf y.
Proof.
  intros Hxy. unfold uniform_cdf.
  destruct (Rlt_dec x 0), (Rlt_dec y 0), (Rlt_dec x 20), (Rlt_dec y 20); lra.
Qed.

Lemma extremeCDF_is_a_cdf_witness :
  (forall x y, x <= y -> uniform_cdf x <= uniform_cdf y) /\
  (forall x, 0 <= uniform_cdf x <= 1) /\
  (1 <= 100)%Z /\
  exists c, extremeCDF 10 100 uniform_cdf = Ok c /\ 0 <= c <= 1.
Proof.
  assert (Hn : (1 <= 100)%Z) by lia.
  split; [exact uniform_cdf_mono |].
  split; [exact uniform_cdf_range |].
  split; [exact Hn |].
  exact (proj1 (extremeCDF_is_a_cdf uniform_cdf 100 uniform_cdf_mono
                  uniform_cdf_range Hn) 10).
Defined.

(** X2. With a sample of size one the extreme value score is the t-digest score
    of notebook 01: [ExtremeValueAnomalyDetector(td).anomaly(x, 1)] and
    [TDigestAnomalyDetector(td).anomaly(x)] return the same value. *)
Theorem extreme_anomaly_of_one_sample (td_cdf : R -> R) (x : R) :
  anomaly td_cdf x 1 = TDigestAnomalyDetector.anomaly td_cdf x.
Proof.
  unfold anomaly, TDigestAnomalyDetector.anomaly. cbn [math_pow bind].
  change (Pos.to_nat 1) with 1%nat. rewrite pow_1. reflexivity.
Qed.

End ExtremeValueFacts.

(** ** [hashing_frequency] and [normarray] *)

Module HashingFacts.
Import PyMath Hashing.
Local Open Scope R_scope.

(** *** Splitting on single spaces *)

Lemma split_space_nonempty (s : string) : split_space s <> [].
Proof.
  destruct s as [| c rest]; cbn; [discriminate |].
  destruct (Ascii.eqb c " "); [discriminate |].
  destruct (split_space rest); discriminate.
Qed.

(** Joining the tokens with single spaces gives the string back. *)
Lemma split_space_join (s : string) : String.concat space (split_space s) = s.
Proof.
  induction s as [| c rest IH]; [reflexivity |].
  cbn [split_space].
  destruct (Ascii.eqb_spec c " "%char) as [-> | Hc].
  - pose proof (split_space_nonempty rest) as Hne.
    destruct (split_space rest) as [| w ws] eqn:E; [contradiction |].
    cbn [String.concat]. cbn [String.concat] in IH. rewrite IH. reflexivity.
  - pose proof (split_space_nonempty rest) as Hne.
    destruct (split_space rest) as [| w ws] eqn:E; [contradiction |].
    cbn [String.concat] in *. destruct ws as [| w' ws'].
    + rewrite IH. reflexivity.
    + cbn [append]. rewrite IH. reflexivity.
Qed.

(** No token contains a space. *)
Lemma split_space_tokens (s : string) :
  Forall (fun w => has_space w = false) (split_space s).
Proof.
  induction s as [| c rest IH]; cbn [split_space].
  - constructor; [reflexivity | constructor].
  - destruct (Ascii.eqb c " "%char) eqn:Ec.
    + constructor; [reflexivity | exact IH].
    + destruct (split_space rest) as [| w ws]; inversion IH; subst;
        constructor; cbn; rewrite ?Ec; auto.
Qed.

(** *** C8 *)

(** C8. The closure returned by [hashing_frequency] gives the same result on a
    string [s] and on the token list [s.split(" ")], errors included; the
    split is on single spaces (joining the tokens with one space restores [s]
    and no token holds a space). *)
Theorem hf_string_equals_tokens (vecsize : Z) (h : string -> Z) (norm : R) (s : string) :
  hashing_frequency vecsize h norm (RawText s)
  = hashing_frequency vecsize h norm (Tokens (split_space s))
  /\ String.concat space (split_space s) = s
  /\ Forall (fun w => has_space w = false) (split_space s).
Proof.
  split; [| split].
  - unfold hashing_frequency. reflexivity.
  - apply split_space_join.
  - apply split_space_tokens.
Qed.

Example split_sample :
  split_space sample_text = ["dog"; ""; "tail"]%string.
Proof. reflexivity. Qed.

(** *** Shingles *)

Lemma substring_length (s : string) :
  forall n m : nat,
    (n + m <= String.length s)%nat -> String.length (substring n m s) = m.
Proof.
  induction s as [| c s IH]; intros n m H; cbn in H.
  - assert (n = 0%nat) by lia. assert (m = 0%nat) by lia. subst. reflexivity.
  - destruct n as [| n].
    + destruct m as [| m]; [reflexivity |].
      cbn [substring String.length]. rewrite IH by lia. reflexivity.
    + cbn [substring]. apply IH. lia.
Qed.

Lemma py_slice_inside (doc : string) (i k : Z) :
  (0 <= i)%Z -> (0 <= k)%Z -> (i + k <= Z.of_nat (String.length doc))%Z ->
  py_slice doc i (i + k) = substring (Z.to_nat i) (Z.to_nat k) doc.
Proof.
  intros Hi Hk Hlen. unfold py_slice, slice_bound, wrapped.
  destruct (Z.ltb_spec i 0) as [H | _]; [lia |].
  destruct (Z.ltb_spec (i + k) 0) as [H | _]; [lia |].
  f_equal; lia.
Qed.

Lemma py_range_spec (n i : Z) : In i (py_range n) <-> (0 <= i < n)%Z.
Proof.
  unfold py_range. rewrite in_map_iff. split.
  - intros (j & <- & Hj). apply in_seq in Hj. lia.
  - intros Hi. exists (Z.to_nat i). split; [lia |]. apply in_seq. lia.
Qed.

(** X4. For a shingle size [k >= 1], [shingles(k)(doc)] lists the
    [len(doc) - k + 1] substrings of length [k] of [doc], in order (none when
    [doc] is shorter than [k]); the notebook's example, the 3-shingles of
    ["dog tail"], comes out as documented. *)
Theorem shingles_are_the_substrings (k : Z) (doc : string) (Hk : (1 <= k)%Z) :
  List.length (shingles k doc)
  = Z.to_nat (Z.of_nat (String.length doc) - k + 1) /\
  Forall (fun s => Z.of_nat (String.length s) = k) (shingles k doc) /\
  (forall i : nat,
     (Z.of_nat i + k <= Z.of_nat (String.length doc))%Z ->
     nth_error (shingles k doc) i = Some (substring i (Z.to_nat k) doc)) /\
  shingles 3 "dog tail" = ["dog"; "og "; "g t"; " ta"; "tai"; "ail"]%string.
Proof.
  split; [| split; [| split]].
  - unfold shingles, py_range. rewrite !length_map, length_seq. reflexivity.
  - unfold shingles. apply Forall_forall. intros s Hs.
    apply in_map_iff in Hs. destruct Hs as (i & <- & Hi).
    apply py_range_spec in Hi.
    rewrite py_slice_inside by lia. rewrite substring_length by lia. lia.
  - intros i Hi. unfold shingles, py_range. rewrite map_map.
    rewrite nth_error_map, nth_error_seq.
    destruct (Nat.ltb_spec i (Z.to_nat (Z.of_nat (String.length doc) - k + 1)))
      as [_ | Hge]; [| lia].
    cbn [option_map Nat.add]. f_equal.
    rewrite py_slice_inside by lia. f_equal. lia.
  - reflexivity.
Qed.

Lemma shingles_are_the_substrings_witness :
  (1 <= 4)%Z /\ List.length (shingles 4 "dog tail") = 5%nat.
Proof.
  assert (Hk : (1 <= 4)%Z) by lia.
  split; [exact Hk |].
  exact (proj1 (shingles_are_the_substrings 4 "dog tail" Hk)).
Defined.

(** *** The Euclidean norm *)

Lemma sum_squares_cons (x : R) (v : list R) :
  sum_squares (x :: v) = x * x + sum_squares v.
Proof. reflexivity. Qed.

Lemma sum_squares_nonneg (v : list R) : 0 <= sum_squares v.
Proof.
  induction v as [| x v IH]; [cbn; lra |].
  rewrite sum_squares_cons.
  pose proof (Rle_0_sqr x) as Hx. unfold Rsqr in Hx. lra.
Qed.

Lemma sum_squares_zero (v : list R) :
  sum_squares v = 0 <-> Forall (fun x => x = 0) v.
Proof.
  induction v as [| x v IH]; [| rewrite sum_squares_cons].
  - split; [constructor | reflexivity].
  - pose proof (sum_squares_nonneg v) as Hv.
    pose proof (Rle_0_sqr x) as Hx. unfold Rsqr in Hx.
    split.
    + intros H. assert (Hxx : x * x = 0) by lra.
      assert (Hs : sum_squares v = 0) by lra.
      constructor; [| apply IH; exact Hs].
      apply Rmult_integral in Hxx. tauto.
    + intros H. inversion H as [| ? ? Hx0 Hrest]; subst.
      apply IH in Hrest. rewrite Hrest. lra.
Qed.

Lemma euclid_norm_nonneg (v : list R) : 0 <= euclid_norm v.
Proof. apply sqrt_pos. Qed.

Lemma euclid_norm_zero (v : list R) :
  euclid_norm v = 0 <-> Forall (fun x => x = 0) v.
Proof.
  unfold euclid_norm. rewrite <- sum_squares_zero. split.
  - intros H. apply sqrt_eq_0; [apply sum_squares_nonneg | exact H].
  - intros ->. apply sqrt_0.
Qed.

Lemma sum_squares_scale (z : R) (v : list R) :
  z <> 0 -> sum_squares (scale_down z v) = sum_squares v / (z * z).
Proof.
  intros Hz. induction v as [| x v IH].
  - cbn. field. exact Hz.
  - cbn [scale_down map]. fold (scale_down z v).
    rewrite !sum_squares_cons, IH. field. exact Hz.
Qed.

Lemma euclid_norm_scale (z : R) (v : list R) :
  0 < z -> euclid_norm (scale_down z v) = euclid_norm v / z.
Proof.
  intros Hz. unfold euclid_norm.
  rewrite sum_squares_scale by lra.
  rewrite sqrt_div_alt by nra.
  rewrite sqrt_square by lra. reflexivity.
Qed.

Lemma scale_down_length (z : R) (v : list R) :
  List.length (scale_down z v) = List.length v.
Proof. apply length_map. Qed.

(** *** The normalization step *)

Lemma np_idiv_finite (v : list R) (r : R) :
  r <> 0 -> np_idiv v (Finite r) = Ok (scale_down r v).
Proof.
  intros Hr. destruct v as [| x v]; [reflexivity |]. cbn [np_idiv].
  destruct (Req_dec_T r 0); [contradiction | reflexivity].
Qed.

(** With a norm parameter other than zero, [z] is finite, and the guard
    [z > 0.0] lets the division through for a divisor other than zero only. *)
Lemma normalize_unfold (norm : R) (hsig : list R) :
  norm <> 0 ->
  normalize norm hsig
  = if Rlt_dec 0 (euclid_norm hsig / norm)
    then Ok (scale_down (euclid_norm hsig / norm) hsig)
    else Ok hsig.
Proof.
  intros Hnorm. unfold normalize, np_div.
  destruct (Req_dec_T norm 0); [contradiction |]. cbn [np_positive].
  destruct (Rlt_dec 0 (euclid_norm hsig / norm)) as [Hz | Hz]; [| reflexivity].
  apply np_idiv_finite. lra.
Qed.

Lemma normarray_unfold (HVSIZE : nat) (v : list R) :
  normarray HVSIZE v
  = (r <- reshape HVSIZE v ;;
     if Rlt_dec 0 (euclid_norm r) then Ok (scale_down (euclid_norm r) r) else Ok r).
Proof.
  unfold normarray. destruct (reshape HVSIZE v) as [r |]; [| reflexivity].
  cbn [bind np_positive].
  destruct (Rlt_dec 0 (euclid_norm r)) as [Hz | Hz]; [| reflexivity].
  apply np_idiv_finite. lra.
Qed.

Lemma normalize_positive (norm : R) (hsig : list R) :
  0 < norm ->
  exists r,
    normalize norm hsig = Ok r /\
    List.length r = List.length hsig /\
    ((euclid_norm hsig = 0 /\ r = hsig /\ Forall (fun x => x = 0) r) \/
     (0 < euclid_norm hsig /\ euclid_norm r = norm)).
Proof.
  intros Hnorm. rewrite normalize_unfold by lra.
  pose proof (euclid_norm_nonneg hsig) as Hge.
  destruct (Rlt_dec 0 (euclid_norm hsig / norm)) as [Hz | Hz].
  - eexists. split; [reflexivity |]. split; [apply scale_down_length |].
    right.
    assert (Hpos : 0 < euclid_norm hsig).
    { destruct Hge as [Hlt | Heq]; [exact Hlt |].
      rewrite <- Heq in Hz. unfold Rdiv in Hz. rewrite Rmult_0_l in Hz. lra. }
    split; [exact Hpos |].
    rewrite euclid_norm_scale by exact Hz. field. lra.
  - exists hsig. split; [reflexivity |]. split; [reflexivity |].
    left.
    assert (Hzero : euclid_norm hsig = 0).
    { destruct Hge as [Hlt | Heq]; [| symmetry; exact Heq].
      exfalso. apply Hz. apply Rdiv_lt_0_compat; assumption. }
    split; [exact Hzero |]. split; [reflexivity |].
    apply euclid_norm_zero. exact Hzero.
Qed.


(** *** The counting loop never leaves the array *)

Lemma py_mod_positive (a b : Z) :
  (0 < b)%Z -> exists i, py_mod a b = Ok i /\ (0 <= i < b)%Z.
Proof.
  intros Hb. unfold py_mod.
  destruct (Z.eqb_spec b 0) as [-> | _]; [lia |].
  exists (a mod b)%Z. split; [reflexivity | apply Z.mod_pos_bound; exact Hb].
Qed.

Lemma bump_in_range (i : nat) (v : list R) :
  (i < List.length v)%nat ->
  exists v', bump i v = Ok v' /\ List.length v' = List.length v.
Proof.
  revert i. induction v as [| x v IH]; intros i Hi; cbn in Hi; [lia |].
  destruct i as [| i]; cbn [bump].
  - eexists. split; [reflexivity | reflexivity].
  - destruct (IH i ltac:(lia)) as (v' & -> & Hlen). cbn [bind].
    eexists. split; [reflexivity |]. cbn. rewrite Hlen. reflexivity.
Qed.

Lemma bump_at_in_range (i : Z) (v : list R) :
  (0 <= i < Z.of_nat (List.length v))%Z ->
  exists v', bump_at i v = Ok v' /\ List.length v' = List.length v.
Proof.
  intros Hi. unfold bump_at, wrapped.
  destruct (Z.ltb_spec i 0) as [Hneg | _]; [lia |].
  destruct (Z.ltb_spec i 0) as [Hneg | _]; [lia |].
  apply bump_in_range. lia.
Qed.

Lemma count_terms_total (h : string -> Z) (vecsize : Z) (terms : list string)
  (hsig : list R) :
  (0 < vecsize)%Z -> List.length hsig = Z.to_nat vecsize ->
  exists r, count_terms h vecsize terms hsig = Ok r /\ List.length r = Z.to_nat vecsize.
Proof.
  intros Hsize. revert hsig.
  induction terms as [| term rest IH]; intros hsig Hlen; cbn [count_terms].
  - exists hsig. split; [reflexivity | exact Hlen].
  - destruct (py_mod_positive (h term) vecsize Hsize) as (i & -> & Hi).
    cbn [bind].
    destruct (bump_at_in_range i hsig ltac:(lia)) as (hsig' & -> & Hlen').
    cbn [bind]. apply IH. lia.
Qed.


(** *** C10 *)

(** Division by zero is an outcome of its own in this model: without the
    guard, the all-zero vector would be divided by its norm. *)
Example division_by_zero_is_seen :
  np_idiv [0; 0] (Finite (euclid_norm [0; 0])) = Err FloatingPointError /\
  normarray 2 [0; 0] = Ok [0; 0].
Proof.
  assert (Hz : euclid_norm [0; 0] = 0).
  { apply euclid_norm_zero. repeat constructor. }
  split.
  - rewrite Hz. cbn [np_idiv].
    destruct (Req_dec_T 0 0) as [_ | H]; [reflexivity | contradiction].
  - rewrite normarray_unfold. cbn [reshape List.length Nat.eqb bind]. rewrite Hz.
    destruct (Rlt_dec 0 0) as [H | _]; [lra | reflexivity].
Qed.


(** Within binary64, rows of ordinary size are normalized as expected:
    [normarray] turns [[3.0, 4.0]] into [[0.6, 0.8]]. *)
Example binary64_normarray_sample :
  Binary64.normarray 2 Binary64.sample_row = Ok Binary64.sample_unit.
Proof. vm_compute. reflexivity. Qed.

(** The claim as it is worded also covers every norm parameter; here is a
    call with a negative one.  [hf] returns the counts unchanged: they are not
    all zero and their Euclidean norm is not the norm parameter. *)
Lemma normalization_negative_norm :
  hashing_frequency 1 const_hash (-1) (Tokens ["a"%string]) = Ok [0 + 1] /\
  ~ Forall (fun x => x = 0) [0 + 1] /\
  euclid_norm [0 + 1] <> -1.
Proof.
  assert (Hn : euclid_norm [0 + 1] = 1).
  { unfold euclid_norm. cbn [sum_squares fold_right].
    replace ((0 + 1) * (0 + 1) + 0) with (1 * 1) by ring.
    apply sqrt_square. lra. }
  split; [| split].
  - unfold hashing_frequency. cbn.
    change (Pos.to_nat 1) with 1%nat. cbn.
    rewrite normalize_unfold by lra. rewrite Hn.
    destruct (Rlt_dec 0 (1 / -1)) as [Hz | _]; [lra | reflexivity].
  - intros H. inversion H; lra.
  - rewrite Hn. lra.
Qed.

(** With a zero norm parameter the unguarded [... / norm] divides by zero:
    [z] is infinite, the guard lets it through, and the division by [z]
    leaves zeros. *)
Example normalization_zero_norm :
  hashing_frequency 1 const_hash 0 (Tokens ["a"%string]) = Ok [0].
Proof.
  assert (Hn : euclid_norm [0 + 1] = 1).
  { unfold euclid_norm. cbn [sum_squares fold_right].
    replace ((0 + 1) * (0 + 1) + 0) with (1 * 1) by ring.
    apply sqrt_square. lra. }
  unfold hashing_frequency. cbn.
  change (Pos.to_nat 1) with 1%nat. cbn.
  unfold normalize, np_div. rewrite Hn.
  destruct (Req_dec_T 0 0) as [_ | H]; [| contradiction].
  destruct (Req_dec_T 1 0) as [H | _]; [lra |].
  destruct (Rlt_dec 0 1) as [_ | H]; [reflexivity | lra].
Qed.



(** *** The order of the tokens does not matter *)

Lemma bump_length (i : nat) (v v' : list R) :
  bump i v = Ok v' -> List.length v' = List.length v.
Proof.
  revert i v'. induction v as [| x v IH]; intros i v' H;
    [destruct i; discriminate |].
  destruct i as [| i]; cbn [bump] in H.
  - injection H as <-. reflexivity.
  - destruct (bump i v) as [v'' |] eqn:E; [| discriminate].
    cbn [bind] in H. injection H as <-. cbn. rewrite (IH i v'' E). reflexivity.
Qed.

Lemma bump_error (i : nat) (v : list R) (e : Error) :
  bump i v = Err e -> e = IndexError /\ (List.length v <= i)%nat.
Proof.
  revert i. induction v as [| x v IH]; intros i H.
  - destruct i; cbn in H; injection H as <-; split; try reflexivity; cbn; lia.
  - destruct i as [| i]; cbn [bump] in H; [discriminate |].
    destruct (bump i v) as [v'' |] eqn:E; [discriminate |].
    cbn [bind] in H. injection H as <-.
    destruct (IH i E) as [-> Hlen]. split; [reflexivity | cbn; lia].
Qed.

(** Two increments commute, whatever is done with the result. *)
Lemma bump_comm {A : Type} (i j : nat) (v : list R) (k : list R -> Result A) :
  (v1 <- bump i v ;; v2 <- bump j v1 ;; k v2)
  = (v1 <- bump j v ;; v2 <- bump i v1 ;; k v2).
Proof.
  revert i j k. induction v as [| x v IH]; intros i j k;
    [destruct i, j; reflexivity |].
  destruct i as [| i], j as [| j]; cbn [bump bind].
  - reflexivity.
  - destruct (bump j v); reflexivity.
  - destruct (bump i v); reflexivity.
  - specialize (IH i j (fun v2 => k (x :: v2))).
    destruct (bump i v) as [v1 |] eqn:Ei, (bump j v) as [v1' |] eqn:Ej;
      cbn [bind] in *.
    + destruct (bump j v1) as [v2 |], (bump i v1') as [v2' |];
        cbn [bind] in *; exact IH.
    + destruct (bump j v1) as [v2 |]; cbn [bind] in *; exact IH.
    + destruct (bump i v1') as [v2' |]; cbn [bind] in *; exact IH.
    + exact IH.
Qed.

Lemma bump_out_of_range (i : nat) (v : list R) :
  (List.length v <= i)%nat -> bump i v = Err IndexError.
Proof.
  revert i. induction v as [| x v IH]; intros i Hi; [destruct i; reflexivity |].
  destruct i as [| i]; cbn in Hi; [lia |].
  cbn [bump]. rewrite IH by lia. reflexivity.
Qed.

Lemma bump_at_unfold (i : Z) (v : list R) :
  bump_at i v
  = if (wrapped i (List.length v) <? 0)%Z then Err IndexError
    else bump (Z.to_nat (wrapped i (List.length v))) v.
Proof. reflexivity. Qed.

Lemma bump_at_length (i : Z) (v v' : list R) :
  bump_at i v = Ok v' -> List.length v' = List.length v.
Proof.
  rewrite bump_at_unfold.
  destruct (wrapped i (List.length v) <? 0)%Z; [discriminate | apply bump_length].
Qed.

(** A failing increment fails on every array of the same length. *)
Lemma bump_at_error (i : Z) (v w : list R) (e : Error) :
  bump_at i v = Err e -> List.length w = List.length v ->
  e = IndexError /\ bump_at i w = Err IndexError.
Proof.
  rewrite !bump_at_unfold. intros H Hlen. rewrite Hlen.
  destruct (wrapped i (List.length v) <? 0)%Z.
  - injection H as <-. split; reflexivity.
  - apply bump_error in H. destruct H as [-> Hout].
    split; [reflexivity |]. apply bump_out_of_range. lia.
Qed.

Lemma bump_at_comm {A : Type} (i j : Z) (v : list R) (k : list R -> Result A) :
  (v1 <- bump_at i v ;; v2 <- bump_at j v1 ;; k v2)
  = (v1 <- bump_at j v ;; v2 <- bump_at i v1 ;; k v2).
Proof.
  destruct (bump_at i v) as [v1 | e1] eqn:Ei, (bump_at j v) as [v1' | e2] eqn:Ej;
    cbn [bind].
  - pose proof (bump_at_length i v v1 Ei) as L1.
    pose proof (bump_at_length j v v1' Ej) as L2.
    rewrite bump_at_unfold in Ei, Ej. rewrite !bump_at_unfold, L1, L2.
    destruct (wrapped i (List.length v) <? 0)%Z; [discriminate |].
    destruct (wrapped j (List.length v) <? 0)%Z; [discriminate |].
    pose proof (bump_comm (Z.to_nat (wrapped i (List.length v)))
                  (Z.to_nat (wrapped j (List.length v))) v k) as Hc.
    rewrite Ei, Ej in Hc. cbn [bind] in Hc. exact Hc.
  - destruct (bump_at_error j v v1 e2 Ej (bump_at_length i v v1 Ei)) as [-> ->].
    reflexivity.
  - destruct (bump_at_error i v v1' e1 Ei (bump_at_length j v v1' Ej)) as [-> ->].
    reflexivity.
  - destruct (bump_at_error i v v e1 Ei eq_refl) as [-> _].
    destruct (bump_at_error j v v e2 Ej eq_refl) as [-> _].
    reflexivity.
Qed.

Lemma count_terms_swap (h : string -> Z) (vecsize : Z) (a b : string)
  (terms : list string) (hsig : list R) :
  count_terms h vecsize (a :: b :: terms) hsig
  = count_terms h vecsize (b :: a :: terms) hsig.
Proof.
  cbn [count_terms]. unfold py_mod.
  destruct (vecsize =? 0)%Z; [reflexivity |]. cbn [bind].
  apply (bump_at_comm (h a mod vecsize) (h b mod vecsize) hsig
           (fun v2 => count_terms h vecsize terms v2)).
Qed.

Lemma count_terms_permutation (h : string -> Z) (vecsize : Z)
  (terms terms' : list string) :
  Permutation terms terms' ->
  forall hsig, count_terms h vecsize terms hsig = count_terms h vecsize terms' hsig.
Proof.
  induction 1 as [| a l l' _ IH | a b l | l l' l'' _ IH1 _ IH2]; intros hsig.
  - reflexivity.
  - cbn [count_terms]. destruct (py_mod (h a) vecsize) as [i |]; [| reflexivity].
    cbn [bind]. destruct (bump_at i hsig) as [hsig' |]; [| reflexivity].
    cbn [bind]. apply IH.
  - apply count_terms_swap.
  - rewrite IH1. apply IH2.
Qed.

(** Dropping the empty tokens keeps a reordering a reordering. *)
Lemma nonempty_tokens_permutation (ws ws' : list string) :
  Permutation ws ws' ->
  Permutation (filter (fun w => (0 <? String.length w)%nat) ws)
              (filter (fun w => (0 <? String.length w)%nat) ws').
Proof.
  intros Hperm. induction Hperm as [| a l l' _ IH | a b l | l l' l'' _ IH1 _ IH2].
  - apply perm_nil.
  - cbn [filter]. destruct (0 <? String.length a)%nat.
    + apply perm_skip. exact IH.
    + exact IH.
  - cbn [filter].
    destruct (0 <? String.length a)%nat, (0 <? String.length b)%nat;
      try apply Permutation_refl.
    apply perm_swap.
  - apply Permutation_trans with (2 := IH2). exact IH1.
Qed.

(** X1. The vector of [hf] depends on the tokens as a bag: reordering the token
    list changes neither the result nor the error. *)
Theorem hf_order_insensitive (vecsize : Z) (h : string -> Z) (norm : R)
  (ws ws' : list string) (Hperm : Permutation ws ws') :
  hashing_frequency vecsize h norm (Tokens ws)
  = hashing_frequency vecsize h norm (Tokens ws').
Proof.
  unfold hashing_frequency.
  destruct (np_zeros vecsize) as [hsig |]; [| reflexivity]. cbn [bind].
  rewrite (count_terms_permutation h vecsize _ _
             (nonempty_tokens_permutation ws ws' Hperm) hsig).
  reflexivity.
Qed.

Lemma hf_order_insensitive_witness :
  Permutation ["dog"; "tail"]%string ["tail"; "dog"]%string /\
  hashing_frequency 512 const_hash 1 (Tokens ["dog"; "tail"]%string)
  = hashing_frequency 512 const_hash 1 (Tokens ["tail"; "dog"]%string).
Proof.
  assert (Hperm : Permutation ["dog"; "tail"]%string ["tail"; "dog"]%string)
    by apply perm_swap.
  split; [exact Hperm |].
  exact (hf_order_insensitive 512 const_hash 1 _ _ Hperm).
Defined.

End HashingFacts.

(** ** [sentiment_compound] *)

Module SentimentFacts.
Import PyMath Sentiment.
Local Open Scope R_scope.

Lemma fold_left_Rplus_bounds (lo hi : R) (scores : list R) :
  Forall (fun s => lo <= s <= hi) scores ->
  forall acc n,
    INR n * lo <= acc <= INR n * hi ->
    INR (n + List.length scores) * lo <= fold_left Rplus scores acc
    <= INR (n + List.length scores) * hi.
Proof.
  induction 1 as [| s scores Hs _ IH]; intros acc n Hacc; cbn [fold_left List.length].
  - rewrite Nat.add_0_r. exact Hacc.
  - replace (n + S (List.length scores))%nat with (S n + List.length scores)%nat by lia.
    apply IH. rewrite S_INR. lra.
Qed.

(** X5. [sentiment_compound] never divides by zero: without sentences it returns
    [0.0], otherwise the mean of the sentence scores, that is [sum(scores)]
    divided by their number; with vader's scores in [[-1, 1]] the result is in
    [[-1, 1]] as well. *)
Theorem sentiment_compound_guarded (re_split_sdelim : string -> list string)
  (compound : string -> R) (text : string)
  (Hscore : forall s, -1 <= compound s <= 1) :
  exists v,
    sentiment_compound re_split_sdelim compound text = Ok v /\
    -1 <= v <= 1 /\
    (sentences re_split_sdelim text = [] -> v = 0) /\
    (sentences re_split_sdelim text <> [] ->
     v = py_sum (map compound (sentences re_split_sdelim text))
         / INR (List.length (sentences re_split_sdelim text))).
Proof.
  unfold sentiment_compound.
  set (scores := map compound (sentences re_split_sdelim text)).
  assert (Hcount : List.length scores = List.length (sentences re_split_sdelim text))
    by apply length_map.
  assert (Hall : Forall (fun s => -1 <= s <= 1) scores).
  { apply Forall_forall. intros s Hs. apply in_map_iff in Hs.
    destruct Hs as (x & <- & _). apply Hscore. }
  destruct (Nat.ltb_spec (List.length scores) 1) as [Hshort | Hlong].
  - exists 0. split; [reflexivity |]. split; [lra |]. split; [reflexivity |].
    intros Hsome. exfalso. apply Hsome.
    apply length_zero_iff_nil. lia.
  - assert (Hn : 0 < INR (List.length scores)) by (apply lt_0_INR; lia).
    unfold float_div.
    destruct (Req_dec_T (INR (List.length scores)) 0) as [Hz | _]; [lra |].
    eexists. split; [reflexivity |]. split; [| split].
    + pose proof (fold_left_Rplus_bounds (-1) 1 scores Hall 0 0%nat) as Hb.
      cbn [Nat.add INR] in Hb. specialize (Hb ltac:(lra)).
      fold (py_sum scores) in Hb. destruct Hb as [Hlo Hhi].
      split.
      * apply Rmult_le_reg_r with (INR (List.length scores)); [exact Hn |].
        unfold Rdiv. rewrite Rmult_assoc, Rinv_l by lra. lra.
      * apply Rmult_le_reg_r with (INR (List.length scores)); [exact Hn |].
        unfold Rdiv. rewrite Rmult_assoc, Rinv_l by lra. lra.
    + intros Hnil. rewrite Hcount, Hnil in Hlong. cbn in Hlong. lia.
    + intros _. rewrite Hcount. reflexivity.
Qed.

Lemma sentiment_compound_guarded_witness :
  (forall s, -1 <= mild s <= 1) /\
  exists v,
    sentiment_compound two_pieces mild "Good. Bad." = Ok v /\
    -1 <= v <= 1 /\ v = / 2.
Proof.
  assert (Hscore : forall s, -1 <= mild s <= 1) by (intros s; unfold mild; lra).
  split; [exact Hscore |].
  destruct (sentiment_compound_guarded two_pieces mild "Good. Bad." Hscore)
    as (v & Hv & Hrange & _ & Hmean).
  exists v. split; [exact Hv |]. split; [exact Hrange |].
  rewrite Hmean by discriminate.
  cbn [sentences two_pieces filter String.length Nat.ltb Nat.leb map List.length
       py_sum fold_left INR]. unfold mild. field.
Defined.

End SentimentFacts.

(** ** More on the two detectors *)

Module DetectorFacts.
Import PyMath PyMathFacts ExtremeValueFacts.
Local Open Scope R_scope.

Lemma math_pow_nonneg (c : R) (n : Z) :
  (0 <= n)%Z -> math_pow c n = Ok (c ^ Z.to_nat n).
Proof.
  intros Hn. destruct n as [| p | p]; try lia; reflexivity.
Qed.

Lemma extreme_anomaly_value (td_cdf : R -> R) (xmax : R) (n : Z) :
  (0 <= n)%Z ->
  ExtremeValueAnomalyDetector.anomaly td_cdf xmax n
  = Ok (- ln (Rmax (1 - td_cdf xmax ^ Z.to_nat n) tail_floor)).
Proof.
  intros Hn. unfold ExtremeValueAnomalyDetector.anomaly. fold tail_floor.
  rewrite math_pow_nonneg by exact Hn. cbn [bind].
  rewrite math_log_pos by apply Rmax_floor_pos. reflexivity.
Qed.

(** X7. The guard [max(t, 1e-100)] keeps [math.log] away from its domain
    error whatever the sketch answers: for any value of [cdf(x)], inside
    [[0,1]] or not, [TDigestAnomalyDetector.anomaly] returns a score, at most
    [-ln 1e-100]; the score is that maximum exactly when
    [cdf(x) >= 1 - 1e-100]; it is not negative when [cdf(x) >= 0], and not
    positive when [cdf(x) <= 0]. *)
Theorem anomaly_survives_any_cdf (td_cdf : R -> R) (x : R) :
  exists s,
    TDigestAnomalyDetector.anomaly td_cdf x = Ok s /\
    s <= - ln tail_floor /\
    (s = - ln tail_floor <-> 1 - tail_floor <= td_cdf x) /\
    (0 <= td_cdf x -> 0 <= s) /\
    (td_cdf x <= 0 -> s <= 0).
Proof.
  unfold TDigestAnomalyDetector.anomaly. fold tail_floor.
  pose proof tail_floor_pos as Hpos. pose proof tail_floor_lt_1 as Hlt.
  pose proof (Rmax_floor_pos (1 - td_cdf x)) as Hmax.
  rewrite math_log_pos by exact Hmax. cbn [bind].
  eexists. split; [reflexivity |].
  split; [apply score_upper |]. split; [| split].
  - split.
    + intros H. apply Ropp_eq_reg in H. apply ln_inv in H; [| exact Hmax | exact Hpos].
      unfold Rmax in H. destruct (Rle_dec (1 - td_cdf x) tail_floor); lra.
    + intros H. apply score_saturated. lra.
  - intros H. apply score_nonneg. lra.
  - intros H. assert (Hge : 1 <= Rmax (1 - td_cdf x) tail_floor).
    { apply Rle_trans with (1 - td_cdf x); [lra | apply Rmax_l]. }
    destruct Hge as [Hgt | Heq].
    + apply ln_increasing in Hgt; [| lra]. rewrite ln_1 in Hgt. lra.
    + rewrite <- Heq, ln_1. lra.
Qed.

(** X8. For a value [cdf(x)] in [[0,1]] and sample sizes [0 <= n1 <= n2],
    [extremeCDF] returns for both, and the value for the larger sample is not
    the larger one: the [evCDF] column of the notebook's table does not
    increase. *)
Theorem extremeCDF_decreases_with_sample_size (cdf : R -> R) (x : R) (n1 n2 : Z)
  (Hc : 0 <= cdf x <= 1) (Hn : (0 <= n1 <= n2)%Z) :
  exists c1 c2,
    ExtremeValueAnomalyDetector.extremeCDF x n1 cdf = Ok c1 /\
    ExtremeValueAnomalyDetector.extremeCDF x n2 cdf = Ok c2 /\
    c2 <= c1.
Proof.
  unfold ExtremeValueAnomalyDetector.extremeCDF. rewrite !math_pow_nonneg by lia.
  eexists. eexists. split; [reflexivity |]. split; [reflexivity |].
  apply pow_antitone; [exact Hc | lia].
Qed.

Lemma extremeCDF_decreases_with_sample_size_witness :
  0 <= ExtremeValueAnomalyDetector.uniform_cdf 10 <= 1 /\ (0 <= 100 <= 1000)%Z /\
  exists c1 c2,
    ExtremeValueAnomalyDetector.extremeCDF 10 100
      ExtremeValueAnomalyDetector.uniform_cdf = Ok c1 /\
    ExtremeValueAnomalyDetector.extremeCDF 10 1000
      ExtremeValueAnomalyDetector.uniform_cdf = Ok c2 /\
    c2 <= c1.
Proof.
  assert (Hc : 0 <= ExtremeValueAnomalyDetector.uniform_cdf 10 <= 1)
    by (rewrite uniform_cdf_at_10; lra).
  assert (Hn : (0 <= 100 <= 1000)%Z) by lia.
  split; [exact Hc |]. split; [exact Hn |].
  exact (extremeCDF_decreases_with_sample_size
           ExtremeValueAnomalyDetector.uniform_cdf 10 100 1000 Hc Hn).
Defined.

(** X9. For a monotone [cdf] with values in [[0,1]] and a sample size
    [n >= 0], the extreme value score does not decrease with the maximum:
    [x <= y] gives [anomaly(x, n) <= anomaly(y, n)], both calls returning. *)
Theorem extreme_anomaly_monotone_in_xmax (td_cdf : R -> R) (n : Z) (x y : R)
  (Hmono : forall u v, u <= v -> td_cdf u <= td_cdf v)
  (Hrange : forall u, 0 <= td_cdf u <= 1)
  (Hn : (0 <= n)%Z) (Hxy : x <= y) :
  exists a b,
    ExtremeValueAnomalyDetector.anomaly td_cdf x n = Ok a /\
    ExtremeValueAnomalyDetector.anomaly td_cdf y n = Ok b /\
    a <= b.
Proof.
  rewrite !extreme_anomaly_value by exact Hn.
  eexists. eexists. split; [reflexivity |]. split; [reflexivity |].
  apply score_antitone.
  assert (td_cdf x ^ Z.to_nat n <= td_cdf y ^ Z.to_nat n).
  { apply pow_incr. split; [apply Hrange | apply Hmono; exact Hxy]. }
  lra.
Qed.

Lemma extreme_anomaly_monotone_in_xmax_witness :
  (forall u v, u <= v ->
     ExtremeValueAnomalyDetector.uniform_cdf u <= ExtremeValueAnomalyDetector.uniform_cdf v) /\
  (forall u, 0 <= ExtremeValueAnomalyDetector.uniform_cdf u <= 1) /\
  (0 <= 100)%Z /\ 5 <= 10 /\
  exists a b,
    ExtremeValueAnomalyDetector.anomaly ExtremeValueAnomalyDetector.uniform_cdf 5 100 = Ok a /\
    ExtremeValueAnomalyDetector.anomaly ExtremeValueAnomalyDetector.uniform_cdf 10 100 = Ok b /\
    a <= b.
Proof.
  assert (Hn : (0 <= 100)%Z) by lia.
  assert (Hxy : 5 <= 10) by lra.
  split; [exact uniform_cdf_mono |]. split; [exact uniform_cdf_range |].
  split; [exact Hn |]. split; [exact Hxy |].
  exact (extreme_anomaly_monotone_in_xmax ExtremeValueAnomalyDetector.uniform_cdf
           100 5 10 uniform_cdf_mono uniform_cdf_range Hn Hxy).
Defined.

(** X10. The sample sizes outside the intended range.  For [n = 0],
    [math.pow] gives [1.0] and the score is the maximum [-ln 1e-100] for every
    [xmax] and every sketch; a negative [n] raises [ValueError] when
    [cdf(xmax)] is [0]. *)
Theorem extreme_anomaly_degenerate_sample (td_cdf : R -> R) (xmax : R) :
  ExtremeValueAnomalyDetector.anomaly td_cdf xmax 0 = Ok (- ln tail_floor) /\
  (forall n, (n < 0)%Z -> td_cdf xmax = 0 ->
     ExtremeValueAnomalyDetector.anomaly td_cdf xmax n = Err ValueError).
Proof.
  split.
  - rewrite extreme_anomaly_value by lia. f_equal.
    change (Z.to_nat 0) with 0%nat. cbn [pow].
    apply score_saturated. pose proof tail_floor_pos. lra.
  - intros n Hn Hz. unfold ExtremeValueAnomalyDetector.anomaly.
    destruct n as [| p | p]; try lia.
    cbn [math_pow]. destruct (Req_dec_T (td_cdf xmax) 0); [reflexivity | contradiction].
Qed.

(** A sketch that has seen nothing below [xmax], and a negative size. *)
Example extreme_anomaly_negative_size :
  ExtremeValueAnomalyDetector.anomaly (fun _ => 0) 10 (-1) = Err ValueError.
Proof.
  unfold ExtremeValueAnomalyDetector.anomaly. cbn [math_pow].
  destruct (Req_dec_T 0 0) as [_ | H]; [reflexivity | contradiction].
Qed.

(** X11. The score can be read back as a probability (over the reals): as
    long as the tail is not below the floor [1e-100], [exp(-score)] is the
    tail, [1 - cdf(x)] for [TDigestAnomalyDetector] and
    [1 - extremeCDF(xmax, n, cdf)] for [ExtremeValueAnomalyDetector] with
    [n >= 0]. *)
Theorem scores_decode_to_tail_probability (td_cdf : R -> R) (x : R) (n : Z)
  (Hn : (0 <= n)%Z) :
  (td_cdf x <= 1 - tail_floor ->
   exists s,
     TDigestAnomalyDetector.anomaly td_cdf x = Ok s /\ exp (- s) = 1 - td_cdf x) /\
  (forall c,
     ExtremeValueAnomalyDetector.extremeCDF x n td_cdf = Ok c ->
     c <= 1 - tail_floor ->
     exists a,
       ExtremeValueAnomalyDetector.anomaly td_cdf x n = Ok a /\ exp (- a) = 1 - c).
Proof.
  pose proof tail_floor_pos as Hpos. split.
  - intros Htail. unfold TDigestAnomalyDetector.anomaly. fold tail_floor.
    rewrite Rmax_left by lra. rewrite math_log_pos by lra. cbn [bind].
    eexists. split; [reflexivity |].
    rewrite Ropp_involutive. apply exp_ln. lra.
  - intros c. unfold ExtremeValueAnomalyDetector.extremeCDF.
    rewrite math_pow_nonneg by exact Hn. intros [= <-] Htail.
    rewrite extreme_anomaly_value by exact Hn.
    eexists. split; [reflexivity |].
    rewrite Rmax_left by lra.
    rewrite Ropp_involutive. apply exp_ln. lra.
Qed.

Lemma scores_decode_to_tail_probability_witness :
  (0 <= 2)%Z /\
  exists a,
    ExtremeValueAnomalyDetector.anomaly ExtremeValueAnomalyDetector.uniform_cdf 10 2
    = Ok a /\
    exp (- a) = 1 - (/ 2) ^ 2.
Proof.
  assert (Hn : (0 <= 2)%Z) by lia.
  split; [exact Hn |].
  apply (proj2 (scores_decode_to_tail_probability
                  ExtremeValueAnomalyDetector.uniform_cdf 10 2 Hn)).
  - unfold ExtremeValueAnomalyDetector.extremeCDF. cbn [math_pow].
    rewrite uniform_cdf_at_10. reflexivity.
  - unfold tail_floor. cbn [pow]. lra.
Defined.

End DetectorFacts.

(** ** [cleantxt] *)

Module CleaningFacts.
Import Cleaning.

Ltac each_char c :=
  destruct c as [[] [] [] [] [] [] [] []]; try reflexivity.

Lemma lower_char_space (c : ascii) : is_space (lower_char c) = is_space c.
Proof. each_char c. Qed.

Lemma lower_char_is_blank (c : ascii) :
  Ascii.eqb (lower_char c) " " = Ascii.eqb c " ".
Proof. each_char c. Qed.

Lemma lower_char_not_upper (c : ascii) : is_upper (lower_char c) = false.
Proof. each_char c. Qed.

Lemma lower_char_fixed (c : ascii) : is_upper c = false -> lower_char c = c.
Proof. intros H. unfold lower_char. rewrite H. reflexivity. Qed.

(** The two equations of a substitution from left to right. *)
Lemma sub_htmlbr_match (rest : string) :
  sub_htmlbr (String.append htmlbr rest) = String " " (sub_htmlbr rest).
Proof. unfold sub_htmlbr. destruct rest; reflexivity. Qed.

Lemma sub_htmlbr_step (c : ascii) (rest : string) :
  prefix htmlbr (String c rest) = false ->
  sub_htmlbr (String c rest) = String c (sub_htmlbr rest).
Proof.
  intros H. unfold sub_htmlbr. cbn [sub_htmlbr_from]. rewrite H. reflexivity.
Qed.

Lemma sub_htmlbr_length (txt : string) :
  forall skip, (String.length (sub_htmlbr_from skip txt) <= String.length txt)%nat.
Proof.
  induction txt as [| c rest IH]; intros skip; [reflexivity |].
  cbn [sub_htmlbr_from]. destruct skip as [| skip'].
  - destruct (prefix htmlbr (String c rest)); cbn [String.length];
      apply le_n_S; apply IH.
  - cbn [String.length]. apply Nat.le_trans with (1 := IH skip'). lia.
Qed.

Lemma sub_whitesp_length (s : string) :
  forall b, (String.length (sub_whitesp_from b s) <= String.length s)%nat.
Proof.
  induction s as [| c rest IH]; intros b; [reflexivity |].
  cbn [sub_whitesp_from].
  specialize (IH true) as IHt. specialize (IH false) as IHf.
  destruct (is_space c); [destruct b |]; cbn [String.length]; lia.
Qed.

Lemma lower_length (s : string) : String.length (lower s) = String.length s.
Proof. induction s as [| c rest IH]; cbn; congruence. Qed.

Lemma sub_whitesp_single_spaced (s : string) :
  forall b, single_spaced_from b (sub_whitesp_from b s) = true.
Proof.
  induction s as [| c rest IH]; intros b; [reflexivity |].
  cbn [sub_whitesp_from]. destruct (is_space c) eqn:Ec.
  - destruct b; [apply IH |].
    cbn [single_spaced_from]. change (is_space " ") with true. cbn. apply IH.
  - cbn [single_spaced_from]. rewrite Ec. apply IH.
Qed.

Lemma lower_single_spaced (s : string) :
  forall b, single_spaced_from b (lower s) = single_spaced_from b s.
Proof.
  induction s as [| c rest IH]; intros b; [reflexivity |].
  cbn [lower single_spaced_from].
  rewrite lower_char_space, lower_char_is_blank, !IH. reflexivity.
Qed.

Lemma lower_no_upper (s : string) : no_upper (lower s) = true.
Proof.
  induction s as [| c rest IH]; [reflexivity |].
  cbn [lower no_upper]. rewrite lower_char_not_upper, IH. reflexivity.
Qed.

Lemma sub_htmlbr_fixed (s : string) : has_htmlbr s = false -> sub_htmlbr s = s.
Proof.
  induction s as [| c rest IH]; [reflexivity |].
  cbn [has_htmlbr]. intros H. apply orb_false_elim in H. destruct H as [Hp Hrest].
  rewrite sub_htmlbr_step by exact Hp. rewrite IH by exact Hrest. reflexivity.
Qed.

Lemma sub_whitesp_fixed (s : string) :
  forall b, single_spaced_from b s = true -> sub_whitesp_from b s = s.
Proof.
  induction s as [| c rest IH]; intros b H; [reflexivity |].
  cbn [single_spaced_from] in H. cbn [sub_whitesp_from].
  destruct (is_space c).
  - apply andb_prop in H. destruct H as [H Hrest].
    apply andb_prop in H. destruct H as [Hc Hb].
    apply Ascii.eqb_eq in Hc. subst c.
    destruct b; [discriminate |]. rewrite IH by exact Hrest. reflexivity.
  - rewrite IH by exact H. reflexivity.
Qed.

Lemma lower_fixed (s : string) : no_upper s = true -> lower s = s.
Proof.
  induction s as [| c rest IH]; [reflexivity |].
  cbn [no_upper lower]. intros H. apply andb_prop in H. destruct H as [Hc Hrest].
  rewrite lower_char_fixed by (destruct (is_upper c); [discriminate | reflexivity]).
  rewrite IH by exact Hrest. reflexivity.
Qed.

(** X12. Whatever the text, [cleantxt] returns a string whose only white space
    is single spaces (no tab, no newline, no two spaces in a row), that holds
    no capital letter, and that is not longer than the text.  (Texts over the
    code points below 256.) *)
Theorem cleantxt_normal_form (txt : string) :
  single_spaced (cleantxt txt) = true /\
  no_upper (cleantxt txt) = true /\
  (String.length (cleantxt txt) <= String.length txt)%nat.
Proof.
  unfold cleantxt, single_spaced. split; [| split].
  - rewrite lower_single_spaced. apply sub_whitesp_single_spaced.
  - apply lower_no_upper.
  - rewrite lower_length.
    apply Nat.le_trans with (1 := sub_whitesp_length _ false).
    apply sub_htmlbr_length.
Qed.

(** X13. Cleaning a cleaned text changes nothing, provided no [<br />] is
    left in it.  The proviso is needed: the tags are replaced before the
    white space is collapsed and the text is lowered, so ["<BR />"] is cleaned
    to ["<br />"], which a second cleaning turns into a space. *)
Theorem cleantxt_idempotent_without_tags (txt : string)
  (Hclean : has_htmlbr (cleantxt txt) = false) :
  cleantxt (cleantxt txt) = cleantxt txt /\
  cleantxt "<BR />" = "<br />"%string /\
  cleantxt (cleantxt "<BR />") = " "%string.
Proof.
  split; [| split; reflexivity].
  unfold cleantxt at 1.
  rewrite sub_htmlbr_fixed by exact Hclean.
  unfold sub_whitesp. rewrite sub_whitesp_fixed.
  - apply lower_fixed. unfold cleantxt. apply lower_no_upper.
  - unfold cleantxt. rewrite lower_single_spaced. apply sub_whitesp_single_spaced.
Qed.

Lemma cleantxt_idempotent_without_tags_witness :
  has_htmlbr (cleantxt "Good<br />TEA,  really") = false /\
  cleantxt "Good<br />TEA,  really" = "good tea, really"%string /\
  cleantxt (cleantxt "Good<br />TEA,  really") = cleantxt "Good<br />TEA,  really".
Proof.
  assert (Hclean : has_htmlbr (cleantxt "Good<br />TEA,  really") = false)
    by reflexivity.
  split; [exact Hclean |]. split; [reflexivity |].
  exact (proj1 (cleantxt_idempotent_without_tags "Good<br />TEA,  really" Hclean)).
Defined.

End CleaningFacts.

(** ** [sentences] with the splitter of the [re] module *)

Module SentenceFacts.
Import PyMath Sentiment SentenceSplit.
Local Open Scope R_scope.

Example split_sdelim_samples :
  split_sdelim "Hi.  There" = ["Hi."; "There"]%string /\
  split_sdelim "a?!" = ["a?"; "!"; ""]%string /\
  split_sdelim " a" = [" a"]%string /\
  split_sdelim "" = [""]%string.
Proof. repeat split. Qed.

Lemma split_sdelim_nonempty (text : string) :
  forall b, split_sdelim_from b text <> [].
Proof.
  induction text as [| c rest IH]; intros b; cbn [split_sdelim_from]; [discriminate |].
  destruct (b && Ascii.eqb c " "); [apply IH |].
  destruct (is_sdelim c); [discriminate |].
  destruct (split_sdelim_from false rest); discriminate.
Qed.

Lemma division_by_one (a : R) : float_div a 1 = Ok (a / 1).
Proof.
  unfold float_div. destruct (Req_dec_T 1 0) as [H | _]; [lra | reflexivity].
Qed.

Lemma sdelim_not_space (c : ascii) : is_sdelim c = true -> Ascii.eqb c " " = false.
Proof.
  unfold is_sdelim. intros H.
  destruct (Ascii.eqb_spec c " ") as [-> | _]; [discriminate | reflexivity].
Qed.

Lemma ends_sentence_cons (c : ascii) (s : string) :
  is_sdelim c = false -> ends_sentence s = true -> ends_sentence (String c s) = true.
Proof.
  intros Hc Hs. destruct s as [| c' s']; [discriminate |].
  cbn [ends_sentence] in *. rewrite Hc. exact Hs.
Qed.

Lemma append_empty (s : string) : append s EmptyString = s.
Proof. induction s as [| c s IH]; cbn; congruence. Qed.

Lemma join_cons (p : string) (ps : list string) :
  String.concat EmptyString (p :: ps) = append p (String.concat EmptyString ps).
Proof.
  destruct ps as [| p' ps']; cbn [String.concat]; [| reflexivity].
  symmetry. apply append_empty.
Qed.

(** What the pieces look like, with a match open or not. *)
Lemma split_sdelim_pieces (text : string) :
  forall b,
    Forall (fun p => ends_sentence p = true) (removelast (split_sdelim_from b text)) /\
    has_sdelim (last (split_sdelim_from b text) EmptyString) = false /\
    Forall (fun p => starts_with_space p = false)
      (if b then split_sdelim_from b text else tl (split_sdelim_from b text)) /\
    without_spaces (String.concat EmptyString (split_sdelim_from b text))
    = without_spaces text.
Proof.
  induction text as [| c rest IH]; intros b.
  - cbn. repeat split; try constructor; destruct b; repeat constructor.
  - cbn [split_sdelim_from].
    destruct (b && Ascii.eqb c " ") eqn:Eeat.
    + apply andb_prop in Eeat. destruct Eeat as [-> Hc].
      destruct (IH true) as (H1 & H2 & H3 & H4).
      repeat split; try assumption.
      cbn [without_spaces]. rewrite Hc. exact H4.
    + destruct (is_sdelim c) eqn:Ec.
      * destruct (IH true) as (H1 & H2 & H3 & H4).
        pose proof (split_sdelim_nonempty rest true) as Hne.
        pose proof (sdelim_not_space c Ec) as Hsp.
        destruct (split_sdelim_from true rest) as [| p ps] eqn:E; [contradiction |].
        repeat split.
        -- change (removelast (String c EmptyString :: p :: ps))
             with (String c EmptyString :: removelast (p :: ps)).
           constructor; [cbn; exact Ec | exact H1].
        -- exact H2.
        -- destruct b; [constructor; [cbn; exact Hsp | exact H3] | exact H3].
        -- rewrite join_cons. cbn [append without_spaces]. rewrite Hsp, H4.
           reflexivity.
      * destruct (IH false) as (H1 & H2 & H3 & H4).
        pose proof (split_sdelim_nonempty rest false) as Hne.
        destruct (split_sdelim_from false rest) as [| p ps] eqn:E; [contradiction |].
        assert (Hsp : b = true -> Ascii.eqb c " " = false).
        { intros ->. exact Eeat. }
        repeat split.
        -- destruct ps as [| p' ps']; [constructor |].
           change (removelast (String c p :: p' :: ps'))
             with (String c p :: removelast (p' :: ps')).
           change (removelast (p :: p' :: ps'))
             with (p :: removelast (p' :: ps')) in H1.
           inversion H1; subst. constructor; [| assumption].
           apply ends_sentence_cons; assumption.
        -- destruct ps as [| p' ps']; [| exact H2].
           cbn [last] in *. cbn [has_sdelim]. rewrite Ec, H2. reflexivity.
        -- cbn [tl] in H3.
           destruct b; [constructor; [cbn; apply Hsp; reflexivity | exact H3] | exact H3].
        -- rewrite join_cons in *. cbn [append without_spaces]. rewrite H4.
           reflexivity.
Qed.

(** X14. How [sentences] cuts a text (Python 3.7 splitting): every piece but
    the last ends with one of [.], [!], [?] and holds none before; the last
    piece holds none; no piece after the first begins with a space; the
    pieces together hold the characters of the text in order, the spaces that
    follow punctuation apart (so nothing but spaces is lost); and [sentences]
    returns the pieces of two characters or more. *)
Theorem sentences_cut_after_punctuation (text : string) :
  Forall (fun p => ends_sentence p = true) (removelast (split_sdelim text)) /\
  has_sdelim (last (split_sdelim text) EmptyString) = false /\
  Forall (fun p => starts_with_space p = false) (tl (split_sdelim text)) /\
  without_spaces (String.concat EmptyString (split_sdelim text)) = without_spaces text /\
  forall s,
    In s (sentences split_sdelim text)
    <-> In s (split_sdelim text) /\ (2 <= String.length s)%nat.
Proof.
  destruct (split_sdelim_pieces text false) as (H1 & H2 & H3 & H4).
  split; [exact H1 |]. split; [exact H2 |]. split; [exact H3 |]. split; [exact H4 |].
  intros s. unfold sentences. rewrite filter_In, Nat.ltb_lt. split.
  - intros [Hin Hlen]. split; [exact Hin | lia].
  - intros [Hin Hlen]. split; [exact Hin | lia].
Qed.

(** A text without punctuation is one piece. *)
Lemma split_sdelim_plain (text : string) :
  has_sdelim text = false -> split_sdelim_from false text = [text].
Proof.
  induction text as [| c rest IH]; [reflexivity |].
  cbn [has_sdelim split_sdelim_from andb]. intros H.
  apply orb_false_elim in H. destruct H as [Hc Hrest].
  rewrite Hc, (IH Hrest). reflexivity.
Qed.

Lemma split_sdelim_punctuation (text : string) :
  only_punctuation text = true ->
  Forall (fun p => (String.length p <= 1)%nat) (split_sdelim_from true text).
Proof.
  induction text as [| c rest IH]; [repeat constructor |].
  cbn [only_punctuation split_sdelim_from andb]. intros H.
  apply andb_prop in H. destruct H as [Hc Hrest].
  destruct (Ascii.eqb c " "); [apply IH; exact Hrest |].
  rewrite orb_false_r in Hc. rewrite Hc.
  constructor; [cbn; lia | apply IH; exact Hrest].
Qed.

Lemma no_long_piece (pieces : list string) :
  Forall (fun p => (String.length p <= 1)%nat) pieces ->
  filter (fun s => (1 <? String.length s)%nat) pieces = [].
Proof.
  induction 1 as [| p pieces Hp _ IH]; [reflexivity |].
  cbn [filter]. destruct (Nat.ltb_spec 1 (String.length p)); [lia | exact IH].
Qed.

(** X15. [sentiment_compound] on texts without a proper sentence: a text of
    at most one character scores [0.0]; so does a text made only of [.], [!],
    [?] and spaces that does not begin with a space, such as ["?!"] or
    ["... !"]; and a text of two or more characters without any of [.], [!],
    [?] is one sentence, scored as vader scores the whole text. *)
Theorem sentiment_compound_without_sentences (compound : string -> R) (text : string) :
  ((String.length text <= 1)%nat ->
   sentiment_compound split_sdelim compound text = Ok 0) /\
  (only_punctuation text = true -> starts_with_space text = false ->
   sentiment_compound split_sdelim compound text = Ok 0) /\
  (has_sdelim text = false -> (2 <= String.length text)%nat ->
   sentiment_compound split_sdelim compound text = Ok (compound text)).
Proof.
  assert (Hnone : sentences split_sdelim text = [] ->
                  sentiment_compound split_sdelim compound text = Ok 0).
  { intros H. unfold sentiment_compound. rewrite H. reflexivity. }
  assert (Hpunct : only_punctuation text = true -> starts_with_space text = false ->
                   sentences split_sdelim text = []).
  { intros Hp Hs. unfold sentences. apply no_long_piece. unfold split_sdelim.
    destruct text as [| c rest]; [repeat constructor |].
    cbn [only_punctuation starts_with_space] in Hp, Hs.
    apply andb_prop in Hp. destruct Hp as [Hc Hrest].
    rewrite Hs, orb_false_r in Hc.
    cbn [split_sdelim_from andb]. rewrite Hc.
    constructor; [cbn; lia | apply split_sdelim_punctuation; exact Hrest]. }
  split; [| split].
  - intros Hlen. apply Hnone. unfold sentences. apply no_long_piece.
    destruct text as [| c [| c' rest]]; cbn in Hlen; try lia.
    + repeat constructor.
    + unfold split_sdelim. cbn [split_sdelim_from andb].
      destruct (is_sdelim c); repeat constructor.
  - intros Hp Hs. apply Hnone. apply Hpunct; assumption.
  - intros Hplain Hlen. unfold sentiment_compound, sentences, split_sdelim.
    rewrite (split_sdelim_plain text Hplain). cbn [filter].
    destruct (Nat.ltb_spec 1 (String.length text)) as [_ | Hshort]; [| lia].
    cbn [map List.length Nat.ltb Nat.leb py_sum fold_left INR].
    rewrite division_by_one. f_equal. lra.
Qed.

Lemma sentiment_compound_without_sentences_witness :
  sentiment_compound split_sdelim mild "!" = Ok 0 /\
  sentiment_compound split_sdelim mild "... !" = Ok 0 /\
  sentiment_compound split_sdelim mild "good tea" = Ok (mild "good tea").
Proof.
  split; [| split].
  - apply (proj1 (sentiment_compound_without_sentences mild "!")). cbn. lia.
  - apply (proj1 (proj2 (sentiment_compound_without_sentences mild "... !")));
      reflexivity.
  - apply (proj2 (proj2 (sentiment_compound_without_sentences mild "good tea")));
      [reflexivity | cbn; lia].
Defined.

End SentenceFacts.

(** ** What [hashing_frequency] counts, and the features built on it *)

Module FeaturesFacts.
Import PyMath Hashing HashingFacts Cleaning Features.
Local Open Scope R_scope.

Lemma bump_nth (i : nat) (v v' : list R) (j : nat) :
  bump i v = Ok v' ->
  nth j v' 0 = nth j v 0 + (if (j =? i)%nat then 1 else 0).
Proof.
  revert i v' j. induction v as [| x v IH]; intros i v' j H;
    [destruct i; discriminate |].
  destruct i as [| i]; cbn [bump] in H.
  - injection H as <-. destruct j as [| j]; cbn; lra.
  - destruct (bump i v) as [v'' |] eqn:E; [| discriminate].
    cbn [bind] in H. injection H as <-.
    destruct j as [| j]; cbn [nth Nat.eqb]; [lra | apply (IH i v'' j E)].
Qed.

Lemma bump_at_nth (i : Z) (v v' : list R) (j : nat) :
  (0 <= i)%Z -> bump_at i v = Ok v' ->
  nth j v' 0 = nth j v 0 + (if (Z.of_nat j =? i)%Z then 1 else 0).
Proof.
  intros Hi. rewrite bump_at_unfold. unfold wrapped.
  destruct (Z.ltb_spec i 0) as [Hneg | _]; [lia |].
  destruct (Z.ltb_spec i 0) as [Hneg | _]; [lia |].
  intros H. rewrite (bump_nth _ _ _ j H).
  destruct (Nat.eqb_spec j (Z.to_nat i)), (Z.eqb_spec (Z.of_nat j) i);
    try reflexivity; lia.
Qed.

Lemma bucket_count_cons (h : string -> Z) (vecsize : Z) (term : string)
  (terms : list string) (j : Z) :
  INR (bucket_count h vecsize (term :: terms) j)
  = (if (j =? h term mod vecsize)%Z then 1 else 0) + INR (bucket_count h vecsize terms j).
Proof.
  unfold bucket_count. cbn [filter]. rewrite (Z.eqb_sym j).
  destruct (h term mod vecsize =? j)%Z.
  - cbn [List.length]. rewrite S_INR. lra.
  - lra.
Qed.

(** The loop adds to every bucket the number of terms hashed to it. *)
Lemma count_terms_nth (h : string -> Z) (vecsize : Z) (terms : list string) :
  (0 < vecsize)%Z ->
  forall hsig r,
    count_terms h vecsize terms hsig = Ok r ->
    forall j : nat,
      nth j r 0 = nth j hsig 0 + INR (bucket_count h vecsize terms (Z.of_nat j)).
Proof.
  intros Hsize. induction terms as [| term rest IH]; intros hsig r H j.
  - cbn in H. injection H as <-. unfold bucket_count. cbn. lra.
  - cbn [count_terms] in H.
    destruct (py_mod_positive (h term) vecsize Hsize) as (i & Hi & Hrange).
    pose proof Hi as Hval. unfold py_mod in Hval.
    destruct (vecsize =? 0)%Z; [discriminate |]. injection Hval as Hval.
    rewrite Hi in H. cbn [bind] in H.
    destruct (bump_at i hsig) as [hsig' |] eqn:Eb; [| discriminate].
    cbn [bind] in H.
    rewrite (IH hsig' r H j), (bump_at_nth i hsig hsig' j (proj1 Hrange) Eb).
    rewrite bucket_count_cons, Hval. lra.
Qed.

Lemma nth_repeat_zero (n j : nat) : nth j (repeat 0 n) 0 = 0.
Proof.
  revert j. induction n as [| n IH]; intros [| j]; cbn; auto.
Qed.

Lemma hf_unfold (vecsize : Z) (h : string -> Z) (norm : R) (ws : list string) :
  hashing_frequency vecsize h norm (Tokens ws)
  = (hsig <- np_zeros vecsize ;;
     hsig <- count_terms h vecsize (nonempty ws) hsig ;;
     normalize norm hsig).
Proof. reflexivity. Qed.

Lemma np_zeros_positive (vecsize : Z) :
  (0 <= vecsize)%Z -> np_zeros vecsize = Ok (repeat 0 (Z.to_nat vecsize)).
Proof.
  intros H. unfold np_zeros. destruct (Z.ltb_spec vecsize 0); [lia | reflexivity].
Qed.

(** The counts before normalization. *)
Lemma counts_from_zero (h : string -> Z) (vecsize : Z) (terms : list string) :
  (0 < vecsize)%Z ->
  exists counts,
    count_terms h vecsize terms (repeat 0 (Z.to_nat vecsize)) = Ok counts /\
    List.length counts = Z.to_nat vecsize /\
    forall j : nat, nth j counts 0 = INR (bucket_count h vecsize terms (Z.of_nat j)).
Proof.
  intros Hsize.
  destruct (count_terms_total h vecsize terms (repeat 0 (Z.to_nat vecsize)) Hsize
              (repeat_length _ _)) as (counts & Hc & Hlen).
  exists counts. split; [exact Hc |]. split; [exact Hlen |].
  intros j. rewrite (count_terms_nth h vecsize terms Hsize _ _ Hc j).
  rewrite nth_repeat_zero. lra.
Qed.

Lemma bump_sum (i : nat) (v v' : list R) :
  bump i v = Ok v' -> fold_right Rplus 0 v' = fold_right Rplus 0 v + 1.
Proof.
  revert i v'. induction v as [| x v IH]; intros i v' H;
    [destruct i; discriminate |].
  destruct i as [| i]; cbn [bump] in H.
  - injection H as <-. cbn. lra.
  - destruct (bump i v) as [v'' |] eqn:E; [| discriminate].
    cbn [bind] in H. injection H as <-.
    cbn [fold_right]. rewrite (IH i v'' E). lra.
Qed.

Lemma bump_at_sum (i : Z) (v v' : list R) :
  bump_at i v = Ok v' -> fold_right Rplus 0 v' = fold_right Rplus 0 v + 1.
Proof.
  rewrite bump_at_unfold.
  destruct (wrapped i (List.length v) <? 0)%Z; [discriminate | apply bump_sum].
Qed.

(** Every pass through the loop adds one to the sum of the entries. *)
Lemma count_terms_sum (h : string -> Z) (vecsize : Z) (terms : list string) :
  forall hsig r,
    count_terms h vecsize terms hsig = Ok r ->
    fold_right Rplus 0 r = fold_right Rplus 0 hsig + INR (List.length terms).
Proof.
  induction terms as [| term rest IH]; intros hsig r H.
  - cbn in H. injection H as <-. cbn. lra.
  - cbn [count_terms] in H.
    destruct (py_mod (h term) vecsize) as [i |]; [| discriminate].
    cbn [bind] in H.
    destruct (bump_at i hsig) as [hsig' |] eqn:Eb; [| discriminate].
    cbn [bind] in H.
    rewrite (IH hsig' r H), (bump_at_sum i hsig hsig' Eb).
    cbn [List.length]. rewrite S_INR. lra.
Qed.

Lemma sum_repeat_zero (n : nat) : fold_right Rplus 0 (repeat 0 n) = 0.
Proof. induction n as [| n IH]; cbn; [reflexivity | rewrite IH; lra]. Qed.

(** X16. What [hf] computes for a size [vecsize >= 1]: before the
    normalization step, entry [j] of the vector is the number of non-empty
    tokens [w] with [h(w) % vecsize = j], repetitions counted, so that the
    entries add up to the number of non-empty tokens; the result is that
    vector of counts put through the normalization step. *)
Theorem hf_counts_per_bucket (vecsize : Z) (h : string -> Z) (norm : R)
  (ws : list string) (Hsize : (0 < vecsize)%Z) :
  exists counts,
    List.length counts = Z.to_nat vecsize /\
    (forall j : nat,
       nth j counts 0 = INR (bucket_count h vecsize (nonempty ws) (Z.of_nat j))) /\
    fold_right Rplus 0 counts = INR (List.length (nonempty ws)) /\
    hashing_frequency vecsize h norm (Tokens ws) = normalize norm counts.
Proof.
  destruct (counts_from_zero h vecsize (nonempty ws) Hsize) as (counts & Hc & Hlen & Hnth).
  exists counts. split; [exact Hlen |]. split; [exact Hnth |]. split.
  - rewrite (count_terms_sum h vecsize _ _ _ Hc), sum_repeat_zero. lra.
  - rewrite hf_unfold, np_zeros_positive by lia. cbn [bind].
    rewrite Hc. reflexivity.
Qed.

Lemma hf_counts_per_bucket_witness :
  (0 < 2)%Z /\
  exists counts,
    nth 0 counts 0 = INR 3 /\ nth 1 counts 0 = INR 0 /\
    fold_right Rplus 0 counts = INR 3 /\
    hashing_frequency 2 const_hash 1 (Tokens ["a"; ""; "b"; "a"]%string)
    = normalize 1 counts.
Proof.
  assert (Hsize : (0 < 2)%Z) by lia.
  split; [exact Hsize |].
  destruct (hf_counts_per_bucket 2 const_hash 1 ["a"; ""; "b"; "a"]%string Hsize)
    as (counts & _ & Hnth & Hsum & Hhf).
  exists counts. split; [exact (Hnth 0%nat) |]. split; [exact (Hnth 1%nat) |].
  split; [exact Hsum | exact Hhf].
Defined.

(** *** Repeating a document *)

Lemma bucket_count_app (h : string -> Z) (vecsize : Z) (a b : list string) (j : Z) :
  bucket_count h vecsize (a ++ b) j
  = (bucket_count h vecsize a j + bucket_count h vecsize b j)%nat.
Proof. unfold bucket_count. rewrite filter_app, length_app. reflexivity. Qed.

Lemma bucket_count_repeated (h : string -> Z) (vecsize : Z) (k : nat)
  (terms : list string) (j : Z) :
  bucket_count h vecsize (repeated k terms) j = (k * bucket_count h vecsize terms j)%nat.
Proof.
  unfold repeated. induction k as [| k IH]; [reflexivity |].
  cbn [repeat List.concat]. rewrite bucket_count_app, IH. reflexivity.
Qed.

Lemma nonempty_repeated (k : nat) (ws : list string) :
  nonempty (repeated k ws) = repeated k (nonempty ws).
Proof.
  unfold repeated, nonempty. induction k as [| k IH]; [reflexivity |].
  cbn [repeat List.concat]. rewrite filter_app, IH. reflexivity.
Qed.

Lemma sum_squares_times (k : R) (v : list R) :
  sum_squares (map (Rmult k) v) = k * k * sum_squares v.
Proof.
  induction v as [| x v IH]; [cbn; ring |].
  cbn [map]. rewrite !sum_squares_cons, IH. ring.
Qed.

Lemma euclid_norm_times (k : R) (v : list R) :
  0 <= k -> euclid_norm (map (Rmult k) v) = k * euclid_norm v.
Proof.
  intros Hk. unfold euclid_norm. rewrite sum_squares_times.
  rewrite sqrt_mult_alt by nra. rewrite sqrt_square by exact Hk. reflexivity.
Qed.

Lemma all_zero_times (k : R) (v : list R) :
  Forall (fun x => x = 0) v -> map (Rmult k) v = v.
Proof.
  induction 1 as [| x v Hx _ IH]; [reflexivity |].
  cbn [map]. rewrite IH, Hx. f_equal. ring.
Qed.

Lemma scale_down_times (k z : R) (v : list R) :
  0 < k -> z <> 0 -> scale_down (k * z) (map (Rmult k) v) = scale_down z v.
Proof.
  intros Hk Hz. unfold scale_down. rewrite map_map. apply map_ext.
  intros x. field. split; lra.
Qed.

(** The normalization step does not see a positive factor. *)
Lemma normalize_times (norm k : R) (v : list R) :
  0 < norm -> 0 < k -> normalize norm (map (Rmult k) v) = normalize norm v.
Proof.
  intros Hnorm Hk. rewrite !normalize_unfold by lra.
  rewrite euclid_norm_times by lra.
  pose proof (euclid_norm_nonneg v) as Hge.
  destruct (Rlt_dec 0 (euclid_norm v / norm)) as [Hz | Hz].
  - assert (Hpos : 0 < euclid_norm v).
    { destruct Hge as [Hlt | Heq]; [exact Hlt |].
      rewrite <- Heq in Hz. unfold Rdiv in Hz. rewrite Rmult_0_l in Hz. lra. }
    destruct (Rlt_dec 0 (k * euclid_norm v / norm)) as [_ | Hn].
    + f_equal. replace (k * euclid_norm v / norm) with (k * (euclid_norm v / norm))
        by (field; lra).
      apply scale_down_times; lra.
    + exfalso. apply Hn. apply Rdiv_lt_0_compat; nra.
  - assert (Hzero : euclid_norm v = 0).
    { destruct Hge as [Hlt | Heq]; [| symmetry; exact Heq].
      exfalso. apply Hz. apply Rdiv_lt_0_compat; assumption. }
    rewrite Hzero.
    destruct (Rlt_dec 0 (k * 0 / norm)) as [Hn | _].
    + exfalso. replace (k * 0 / norm) with 0 in Hn by (field; lra). lra.
    + f_equal. apply all_zero_times. apply euclid_norm_zero. exact Hzero.
Qed.

Lemma counts_repeated (h : string -> Z) (vecsize : Z) (k : nat) (terms : list string)
  (counts counts' : list R) :
  (0 < vecsize)%Z ->
  count_terms h vecsize terms (repeat 0 (Z.to_nat vecsize)) = Ok counts ->
  count_terms h vecsize (repeated k terms) (repeat 0 (Z.to_nat vecsize)) = Ok counts' ->
  counts' = map (Rmult (INR k)) counts.
Proof.
  intros Hsize Hc Hc'.
  destruct (count_terms_total h vecsize terms _ Hsize (repeat_length 0 (Z.to_nat vecsize)))
    as (c & Hc1 & Hlen).
  destruct (count_terms_total h vecsize (repeated k terms) _ Hsize
              (repeat_length 0 (Z.to_nat vecsize))) as (c' & Hc1' & Hlen').
  rewrite Hc in Hc1. injection Hc1 as <-. rewrite Hc' in Hc1'. injection Hc1' as <-.
  apply (nth_ext _ _ 0 (INR k * 0)); [rewrite length_map; lia |].
  intros j _. rewrite (map_nth (Rmult (INR k))).
  rewrite (count_terms_nth h vecsize _ Hsize _ _ Hc' j).
  rewrite (count_terms_nth h vecsize _ Hsize _ _ Hc j).
  rewrite !nth_repeat_zero, bucket_count_repeated, mult_INR. lra.
Qed.

(** X17. The normalization puts texts of different lengths on an equal
    footing: for a positive size and norm parameter, a token list written
    [k >= 1] times over gets the same vector as the token list itself (over
    the reals). *)
Theorem hf_repetition_invariant (vecsize : Z) (h : string -> Z) (norm : R)
  (k : nat) (ws : list string)
  (Hsize : (0 < vecsize)%Z) (Hnorm : 0 < norm) (Hk : (1 <= k)%nat) :
  hashing_frequency vecsize h norm (Tokens (repeated k ws))
  = hashing_frequency vecsize h norm (Tokens ws).
Proof.
  rewrite !hf_unfold, np_zeros_positive by lia. cbn [bind].
  rewrite nonempty_repeated.
  destruct (count_terms_total h vecsize (nonempty ws) _ Hsize
              (repeat_length 0 (Z.to_nat vecsize))) as (c & Hc & _).
  destruct (count_terms_total h vecsize (repeated k (nonempty ws)) _ Hsize
              (repeat_length 0 (Z.to_nat vecsize))) as (c' & Hc' & _).
  rewrite Hc, Hc'. cbn [bind].
  rewrite (counts_repeated h vecsize k _ c c' Hsize Hc Hc').
  apply normalize_times; [exact Hnorm |]. apply lt_0_INR. lia.
Qed.

Lemma hf_repetition_invariant_witness :
  (0 < 512)%Z /\ 0 < 1 /\ (1 <= 3)%nat /\
  hashing_frequency 512 const_hash 1
    (Tokens ["dog"; "tail"; "dog"; "tail"; "dog"; "tail"]%string)
  = hashing_frequency 512 const_hash 1 (Tokens ["dog"; "tail"]%string).
Proof.
  assert (Hsize : (0 < 512)%Z) by lia.
  assert (Hnorm : 0 < 1) by lra.
  assert (Hk : (1 <= 3)%nat) by lia.
  split; [exact Hsize |]. split; [exact Hnorm |]. split; [exact Hk |].
  exact (hf_repetition_invariant 512 const_hash 1 3 ["dog"; "tail"]%string
           Hsize Hnorm Hk).
Defined.

(** *** Sizes that are not positive *)

Lemma euclid_norm_nil : euclid_norm [] = 0.
Proof. unfold euclid_norm. cbn. apply sqrt_0. Qed.

(** X18. Sizes that are not positive.  A negative [vecsize] makes [np.zeros]
    raise [ValueError], whatever the tokens.  With [vecsize = 0] the first
    non-empty token raises [ZeroDivisionError] at [h(term) % vecsize]; without
    a non-empty token the empty vector is returned (for a norm parameter other
    than [0]). *)
Theorem hf_degenerate_size (vecsize : Z) (h : string -> Z) (norm : R) (ws : list string) :
  ((vecsize < 0)%Z ->
   hashing_frequency vecsize h norm (Tokens ws) = Err ValueError) /\
  (vecsize = 0%Z -> nonempty ws <> [] ->
   hashing_frequency vecsize h norm (Tokens ws) = Err ZeroDivisionError) /\
  (vecsize = 0%Z -> nonempty ws = [] -> norm <> 0 ->
   hashing_frequency vecsize h norm (Tokens ws) = Ok []).
Proof.
  rewrite hf_unfold. split; [| split].
  - intros Hneg. unfold np_zeros.
    destruct (Z.ltb_spec vecsize 0); [reflexivity | lia].
  - intros -> Hws. cbn [np_zeros Z.ltb Z.compare Z.to_nat repeat bind].
    destruct (nonempty ws) as [| term terms]; [contradiction |]. reflexivity.
  - intros -> Hws Hnorm. rewrite Hws.
    cbn [np_zeros Z.ltb Z.compare Z.to_nat repeat bind count_terms].
    rewrite normalize_unfold by exact Hnorm.
    rewrite euclid_norm_nil.
    destruct (Rlt_dec 0 (0 / norm)) as [Hz | _]; [| reflexivity].
    exfalso. unfold Rdiv in Hz. rewrite Rmult_0_l in Hz. lra.
Qed.

Lemma hf_degenerate_size_witness :
  hashing_frequency (-1) const_hash 1 (Tokens ["dog"]%string) = Err ValueError /\
  hashing_frequency 0 const_hash 1 (Tokens ["dog"]%string) = Err ZeroDivisionError /\
  hashing_frequency 0 const_hash 1 (Tokens [""]%string) = Ok [].
Proof.
  split; [| split].
  - apply (proj1 (hf_degenerate_size (-1) const_hash 1 ["dog"]%string)). lia.
  - apply (proj1 (proj2 (hf_degenerate_size 0 const_hash 1 ["dog"]%string)));
      [reflexivity | discriminate].
  - apply (proj2 (proj2 (hf_degenerate_size 0 const_hash 1 [""]%string)));
      [reflexivity | reflexivity | lra].
Defined.

(** *** Which texts get the zero vector *)

Lemma entry_below_norm (v : list R) (x : R) : In x v -> x <= euclid_norm v.
Proof.
  intros Hin. unfold euclid_norm.
  assert (Hsq : x * x <= sum_squares v).
  { induction v as [| y v IH]; [contradiction |].
    rewrite sum_squares_cons. pose proof (sum_squares_nonneg v).
    destruct Hin as [-> | Hin]; [lra |].
    specialize (IH Hin). nra. }
  destruct (Rle_lt_dec x 0) as [Hneg | Hpos].
  - apply Rle_trans with 0; [exact Hneg | apply sqrt_pos].
  - rewrite <- (sqrt_square x) by lra. apply sqrt_le_1_alt. exact Hsq.
Qed.

Lemma counts_nonneg (h : string -> Z) (vecsize : Z) (terms : list string)
  (counts : list R) :
  (0 < vecsize)%Z ->
  count_terms h vecsize terms (repeat 0 (Z.to_nat vecsize)) = Ok counts ->
  Forall (fun x => 0 <= x) counts.
Proof.
  intros Hsize Hc. apply Forall_forall. intros x Hin.
  destruct (In_nth _ _ 0 Hin) as (j & _ & <-).
  rewrite (count_terms_nth h vecsize _ Hsize _ _ Hc j), nth_repeat_zero.
  pose proof (pos_INR (bucket_count h vecsize terms (Z.of_nat j))). lra.
Qed.

Lemma counts_not_zero (h : string -> Z) (vecsize : Z) (term : string)
  (terms : list string) (counts : list R) :
  (0 < vecsize)%Z ->
  count_terms h vecsize (term :: terms) (repeat 0 (Z.to_nat vecsize)) = Ok counts ->
  0 < euclid_norm counts.
Proof.
  intros Hsize Hc.
  destruct (count_terms_total h vecsize (term :: terms) _ Hsize
              (repeat_length 0 (Z.to_nat vecsize))) as (c & Hc1 & Hlen).
  rewrite Hc in Hc1. injection Hc1 as <-.
  pose proof (Z.mod_pos_bound (h term) vecsize Hsize) as Hi.
  set (j := Z.to_nat (h term mod vecsize)).
  assert (Hj : 1 <= nth j counts 0).
  { rewrite (count_terms_nth h vecsize _ Hsize _ _ Hc j), nth_repeat_zero.
    rewrite bucket_count_cons. unfold j. rewrite Z2Nat.id by lia.
    rewrite Z.eqb_refl.
    pose proof (pos_INR (bucket_count h vecsize terms (h term mod vecsize))). lra. }
  assert (Hin : In (nth j counts 0) counts) by (apply nth_In; unfold j; lia).
  pose proof (entry_below_norm counts _ Hin). lra.
Qed.

Lemma scale_down_nonneg (z : R) (v : list R) :
  0 < z -> Forall (fun x => 0 <= x) v -> Forall (fun x => 0 <= x) (scale_down z v).
Proof.
  intros Hz Hv. unfold scale_down. apply Forall_map.
  apply Forall_impl with (2 := Hv). intros x Hx. cbn.
  apply Rmult_le_pos; [exact Hx |]. apply Rlt_le. apply Rinv_0_lt_compat. exact Hz.
Qed.

(** What [hf] returns for a positive size and norm parameter. *)
Lemma hf_result (vecsize : Z) (h : string -> Z) (norm : R) (ws : list string) :
  (0 < vecsize)%Z -> 0 < norm ->
  exists r,
    hashing_frequency vecsize h norm (Tokens ws) = Ok r /\
    List.length r = Z.to_nat vecsize /\
    Forall (fun x => 0 <= x <= norm) r /\
    (nonempty ws = [] -> r = repeat 0 (Z.to_nat vecsize)) /\
    (nonempty ws <> [] -> euclid_norm r = norm).
Proof.
  intros Hsize Hnorm.
  rewrite hf_unfold, np_zeros_positive by lia. cbn [bind].
  destruct (count_terms_total h vecsize (nonempty ws) _ Hsize
              (repeat_length 0 (Z.to_nat vecsize))) as (c & Hc & Hlen).
  rewrite Hc. cbn [bind].
  pose proof (counts_nonneg h vecsize _ c Hsize Hc) as Hpos.
  destruct (nonempty ws) as [| term terms] eqn:Ews.
  - cbn in Hc. injection Hc as <-.
    destruct (normalize_positive norm (repeat 0 (Z.to_nat vecsize)) Hnorm)
      as (r & Hr & _ & [(_ & -> & _) | (Hn & _)]).
    + exists (repeat 0 (Z.to_nat vecsize)). split; [exact Hr |].
      split; [apply repeat_length |]. split.
      * apply Forall_forall. intros x Hx. apply repeat_spec in Hx. lra.
      * split; [reflexivity | intros H; contradiction].
    + exfalso. assert (Hz : euclid_norm (repeat 0 (Z.to_nat vecsize)) = 0).
      { apply euclid_norm_zero. apply Forall_forall. intros x Hx.
        apply repeat_spec in Hx. exact Hx. }
      lra.
  - pose proof (counts_not_zero h vecsize term terms c Hsize Hc) as Hn.
    rewrite normalize_unfold by lra.
    destruct (Rlt_dec 0 (euclid_norm c / norm)) as [Hz | Hz];
      [| exfalso; apply Hz; apply Rdiv_lt_0_compat; assumption].
    eexists. split; [reflexivity |].
    assert (Hr : euclid_norm (scale_down (euclid_norm c / norm) c) = norm).
    { rewrite euclid_norm_scale by exact Hz. field. lra. }
    split; [rewrite scale_down_length; exact Hlen |]. split.
    + pose proof (scale_down_nonneg _ c Hz Hpos) as Hge.
      apply Forall_forall. intros x Hx. split.
      * rewrite Forall_forall in Hge. apply Hge. exact Hx.
      * rewrite <- Hr. apply entry_below_norm. exact Hx.
    + split; [intros H; discriminate | intros _; exact Hr].
Qed.



Lemma sh4_short (doc : string) :
  (String.length doc < 4)%nat -> sh4 doc = [].
Proof.
  intros Hlen. unfold sh4, shingles, py_range.
  replace (Z.to_nat (Z.of_nat (String.length doc) - 4 + 1)) with 0%nat by lia.
  reflexivity.
Qed.

Lemma sh4_long (doc : string) :
  (4 <= String.length doc)%nat -> nonempty (sh4 doc) <> [].
Proof.
  intros Hlen. unfold sh4, shingles, py_range.
  replace (Z.to_nat (Z.of_nat (String.length doc) - 4 + 1))
    with (S (String.length doc - 4)) by lia.
  cbn [seq map]. change (Z.of_nat 0) with 0%Z.
  rewrite (py_slice_inside doc 0 4) by lia.
  unfold nonempty. cbn [filter]. rewrite substring_length by (cbn; lia).
  cbn. discriminate.
Qed.

(** X20. The shingle features of notebook 05, [hsig(sh4(cleantxt(txt)))],
    exist for every text and every hash function: the call never raises and
    returns 512 entries, each in [[0,1]].  A text whose cleaned form has fewer
    than 4 characters has no 4-shingle and gets the all-zero vector; every
    other text gets a vector of Euclidean norm [1]. *)
Theorem feats2_zero_or_unit (hash : string -> Z) (txt : string) :
  exists r,
    feats2 hash txt = Ok r /\
    List.length r = 512%nat /\
    Forall (fun x => 0 <= x <= 1) r /\
    ((String.length (cleantxt txt) < 4)%nat -> r = repeat 0 512) /\
    ((4 <= String.length (cleantxt txt))%nat -> euclid_norm r = 1).
Proof.
  unfold feats2, hsig.
  destruct (hf_result 512 hash 1 (sh4 (cleantxt txt)) ltac:(lia) ltac:(lra))
    as (r & Hr & Hlen & Hrange & Hzero & Hunit).
  exists r. split; [exact Hr |]. split; [exact Hlen |]. split; [exact Hrange |].
  split.
  - intros Hshort. apply Hzero. rewrite sh4_short by exact Hshort. reflexivity.
  - intros Hlong. apply Hunit. apply sh4_long. exact Hlong.
Qed.

(** *** [normarray] *)

(** X21. [normarray] on float rows: a row that does not have [HVSIZE]
    entries raises [ValueError] at the [reshape]; and the result does not see
    a positive factor: a row and the same row with every entry multiplied by
    [k > 0] are normalized to the same vector (over the reals). *)
Theorem normarray_shape_and_scale (HVSIZE : nat) (v : list R) :
  (List.length v <> HVSIZE -> normarray HVSIZE v = Err ValueError) /\
  (forall k, 0 < k -> normarray HVSIZE (map (Rmult k) v) = normarray HVSIZE v).
Proof.
  split.
  - intros Hlen. unfold normarray, reshape.
    destruct (Nat.eqb_spec (List.length v) HVSIZE) as [H | _];
      [contradiction | reflexivity].
  - intros k Hk. rewrite !normarray_unfold. unfold reshape. rewrite length_map.
    destruct (List.length v =? HVSIZE)%nat; [| reflexivity]. cbn [bind].
    rewrite euclid_norm_times by lra.
    pose proof (euclid_norm_nonneg v) as Hge.
    destruct (Rlt_dec 0 (euclid_norm v)) as [Hz | Hz].
    + destruct (Rlt_dec 0 (k * euclid_norm v)) as [_ | Hn]; [| exfalso; nra].
      f_equal. apply scale_down_times; lra.
    + assert (Hzero : euclid_norm v = 0) by lra.
      rewrite Hzero, Rmult_0_r.
      destruct (Rlt_dec 0 0) as [Hn | _]; [lra |].
      f_equal. apply all_zero_times. apply euclid_norm_zero. exact Hzero.
Qed.

Lemma normarray_shape_and_scale_witness :
  normarray 3 [3; 4] = Err ValueError /\
  normarray 2 (map (Rmult 2) [3; 4]) = normarray 2 [3; 4].
Proof.
  split.
  - apply (proj1 (normarray_shape_and_scale 3 [3; 4])). cbn. lia.
  - apply (proj2 (normarray_shape_and_scale 2 [3; 4])). lra.
Defined.

End FeaturesFacts.

(** ** [pdist] and [predictor] *)

Module PredictorFacts.
Import PyMath Hashing HashingFacts Cleaning Predictor.
Local Open Scope R_scope.

Lemma sum_squares_opp (d : list R) : sum_squares (map Ropp d) = sum_squares d.
Proof.
  induction d as [| x d IH]; [reflexivity |].
  cbn [map]. rewrite !sum_squares_cons, IH. ring.
Qed.

Lemma euclid_norm_opp (d : list R) : euclid_norm (map Ropp d) = euclid_norm d.
Proof. unfold euclid_norm. rewrite sum_squares_opp. reflexivity. Qed.

Lemma combine_swap (a b : list R) :
  map (fun xy => fst xy - snd xy) (combine b a)
  = map Ropp (map (fun xy => fst xy - snd xy) (combine a b)).
Proof.
  revert b. induction a as [| x a IH]; intros [| y b]; try reflexivity.
  cbn [combine map fst snd]. rewrite IH. f_equal. ring.
Qed.

(** Swapping the operands of a subtraction negates the entries and keeps the
    error. *)
Lemma np_sub_swap (a b : list R) :
  np_sub b a = (d <- np_sub a b ;; Ok (map Ropp d)).
Proof.
  unfold np_sub. rewrite (Nat.eqb_sym (List.length b)).
  destruct (Nat.eqb_spec (List.length a) (List.length b)) as [Hlen | Hlen].
  - cbn [bind]. f_equal. apply combine_swap.
  - destruct a as [| x [| x' a]], b as [| y [| y' b]]; cbn [bind];
      try reflexivity; try (exfalso; apply Hlen; reflexivity);
      f_equal; rewrite map_map; apply map_ext; intros z; ring.
Qed.

(** X22. The score of the service is the [pdist] of the training notebook:
    [predictor(x)] is [pdist] at the normalized vector of [x] and the cluster
    predicted for it, errors included.  The two subtract in opposite orders,
    which the norm does not see. *)
Theorem predictor_is_pdist (HVSIZE : nat) (vectorizer_transform : string -> list R)
  (predict : list R -> Z) (cluster_centers_ : list (list R)) (x : string) :
  predictor HVSIZE vectorizer_transform predict cluster_centers_ x
  = (xvec <- normarray HVSIZE (vectorizer_transform (cleantxt x)) ;;
     pdist cluster_centers_ xvec (predict xvec)).
Proof.
  unfold predictor, pdist.
  destruct (normarray HVSIZE (vectorizer_transform (cleantxt x))) as [xvec |];
    [| reflexivity].
  cbn [bind].
  destruct (row cluster_centers_ (predict xvec)) as [xc |]; [| reflexivity].
  cbn [bind]. rewrite (np_sub_swap xvec xc).
  destruct (np_sub xvec xc) as [d |]; [| reflexivity].
  cbn [bind]. rewrite euclid_norm_opp. reflexivity.
Qed.

Lemma sum_squares_norm (v : list R) : sum_squares v = euclid_norm v * euclid_norm v.
Proof. unfold euclid_norm. rewrite sqrt_sqrt; [reflexivity | apply sum_squares_nonneg]. Qed.

Lemma sum_squares_difference (a b : list R) :
  Forall (fun x => 0 <= x) a -> Forall (fun x => 0 <= x) b ->
  sum_squares (map (fun xy => fst xy - snd xy) (combine a b))
  <= sum_squares a + sum_squares b.
Proof.
  intros Ha. revert b. induction Ha as [| x a Hx _ IH]; intros b Hb.
  - cbn [combine map]. pose proof (sum_squares_nonneg b). cbn. lra.
  - destruct Hb as [| y b Hy Hb].
    + cbn [combine map]. pose proof (sum_squares_nonneg (x :: a)). cbn in *. lra.
    + cbn [combine map fst snd]. rewrite !sum_squares_cons.
      specialize (IH b Hb). nra.
Qed.

Lemma normarray_nonneg (HVSIZE : nat) (v : list R) :
  List.length v = HVSIZE -> Forall (fun x => 0 <= x) v ->
  exists r,
    normarray HVSIZE v = Ok r /\
    List.length r = HVSIZE /\
    Forall (fun x => 0 <= x) r /\
    euclid_norm r <= 1.
Proof.
  intros Hlen Hv. rewrite normarray_unfold. unfold reshape.
  rewrite (proj2 (Nat.eqb_eq _ _) Hlen). cbn [bind].
  destruct (Rlt_dec 0 (euclid_norm v)) as [Hz | Hz].
  - eexists. split; [reflexivity |].
    split; [rewrite scale_down_length; exact Hlen |]. split.
    + unfold scale_down. apply Forall_map.
      apply Forall_impl with (2 := Hv). intros x Hx. cbn.
      apply Rmult_le_pos; [exact Hx |]. apply Rlt_le, Rinv_0_lt_compat. exact Hz.
    + rewrite euclid_norm_scale by exact Hz.
      apply Req_le. field. lra.
  - exists v. split; [reflexivity |]. split; [exact Hlen |]. split; [exact Hv |].
    pose proof (euclid_norm_nonneg v). lra.
Qed.

Lemma row_in_range {A : Type} (rows : list A) (j : Z) :
  (0 <= j < Z.of_nat (List.length rows))%Z ->
  exists r, row rows j = Ok r /\ In r rows.
Proof.
  intros Hj. unfold row, wrapped.
  destruct (Z.ltb_spec j 0) as [Hneg | _]; [lia |].
  destruct (Z.ltb_spec j 0) as [Hneg | _]; [lia |].
  destruct (nth_error rows (Z.to_nat j)) as [r |] eqn:E.
  - exists r. split; [reflexivity |]. apply nth_error_In with (1 := E).
  - apply nth_error_None in E. lia.
Qed.

(** X23. The range of the service's score.  Suppose, as scikit-learn
    provides, that the vectorizer returns rows of [HVSIZE] counts, none
    negative, that [predict] returns the index of a centre, and that every
    centre has [HVSIZE] entries, none negative, and a Euclidean norm of at most
    [1] (a centre is a mean of normalized rows).  Then [predictor] returns for
    every text, and the score lies between [0] and the square root of [2]. *)
Theorem predictor_score_range (HVSIZE : nat) (vectorizer_transform : string -> list R)
  (predict : list R -> Z) (cluster_centers_ : list (list R)) (x : string)
  (Hrows : forall xclean,
     List.length (vectorizer_transform xclean) = HVSIZE /\
     Forall (fun c => 0 <= c) (vectorizer_transform xclean))
  (Hpredict : forall xvec,
     (0 <= predict xvec < Z.of_nat (List.length cluster_centers_))%Z)
  (Hcentres : Forall (fun xc => List.length xc = HVSIZE /\
                                Forall (fun c => 0 <= c) xc /\
                                euclid_norm xc <= 1) cluster_centers_) :
  exists score,
    predictor HVSIZE vectorizer_transform predict cluster_centers_ x = Ok score /\
    0 <= score <= sqrt 2.
Proof.
  unfold predictor.
  destruct (Hrows (cleantxt x)) as [Hlen Hcounts].
  destruct (normarray_nonneg HVSIZE _ Hlen Hcounts)
    as (xvec & -> & Hxlen & Hxpos & Hxnorm).
  cbn [bind].
  destruct (row_in_range cluster_centers_ (predict xvec) (Hpredict xvec))
    as (xc & -> & Hin).
  cbn [bind].
  rewrite Forall_forall in Hcentres.
  destruct (Hcentres xc Hin) as (Hclen & Hcpos & Hcnorm).
  unfold np_sub. rewrite Hclen, Hxlen, Nat.eqb_refl. cbn [bind].
  eexists. split; [reflexivity |]. split; [apply euclid_norm_nonneg |].
  unfold euclid_norm at 1. apply sqrt_le_1_alt.
  apply Rle_trans with (1 := sum_squares_difference xc xvec Hcpos Hxpos).
  rewrite (sum_squares_norm xc), (sum_squares_norm xvec).
  pose proof (euclid_norm_nonneg xc). pose proof (euclid_norm_nonneg xvec). nra.
Qed.

Lemma one_centre_norm : euclid_norm [1; 0] = 1.
Proof.
  unfold euclid_norm. cbn [sum_squares fold_right].
  replace (1 * 1 + (0 * 0 + 0)) with (1 * 1) by ring.
  apply sqrt_square. lra.
Qed.

Lemma predictor_score_range_witness :
  exists score,
    predictor 2 two_counts first_cluster one_centre "Good tea" = Ok score /\
    0 <= score <= sqrt 2.
Proof.
  apply (predictor_score_range 2 two_counts first_cluster one_centre "Good tea").
  - intros xclean. split; [reflexivity |].
    unfold two_counts. repeat constructor; lra.
  - intros xvec. unfold first_cluster, one_centre. cbn. lia.
  - unfold one_centre. constructor; [| constructor].
    split; [reflexivity |]. split; [repeat constructor; lra |].
    rewrite one_centre_norm. lra.
Defined.

End PredictorFacts.

(** ** The [TDigest] model: invariants of the centroid sequence *)

Module TDigestFacts.
Import TDigest.
Local Open Scope Q_scope.

Ltac qlra := Lqa.lra.
Ltac qnra := Lqa.nra.

Lemma Qltb_lt (x y : Q) : Qltb x y = true <-> x < y.
Proof.
  unfold Qltb. rewrite Qlt_alt. destruct (x ?= y); split; congruence.
Qed.

Lemma Qltb_ge (x y : Q) : Qltb x y = false <-> y <= x.
Proof.
  unfold Qltb. destruct (Qcompare_spec x y) as [H | H | H];
    split; intros H'; try reflexivity; try discriminate; try qlra.
Qed.

Lemma Qle_bool_gt (x y : Q) : Qle_bool x y = false <-> y < x.
Proof.
  destruct (Qle_bool x y) eqn:E.
  - apply Qle_bool_iff in E. split; [discriminate | intros; qlra].
  - split; [intros _ | reflexivity].
    destruct (Qlt_le_dec y x) as [H | H]; [exact H |].
    apply Qle_bool_iff in H. congruence.
Qed.

(** *** Total weight *)

Lemma total_weight_cons (c : Centroid) (cs : list Centroid) :
  total_weight (c :: cs) = weight c + total_weight cs.
Proof. reflexivity. Qed.

Lemma total_weight_app (cs1 cs2 : list Centroid) :
  total_weight (cs1 ++ cs2) == total_weight cs1 + total_weight cs2.
Proof.
  induction cs1 as [| c cs1 IH]; cbn [app].
  - cbn. qlra.
  - rewrite !total_weight_cons, IH. qlra.
Qed.

(** *** Well-formed sequences: positive weights, strictly ascending means *)

Lemma above_weaken (lo lo' : Q) (cs : list Centroid) :
  lo' <= lo -> above lo cs -> above lo' cs.
Proof. destruct cs as [| c cs]; cbn; [trivial | intros; qlra]. Qed.

Lemma total_weight_nonneg (cs : list Centroid) :
  all_positive cs -> 0 <= total_weight cs.
Proof.
  induction 1 as [| c cs Hc _ IH]; [cbn; qlra |].
  rewrite total_weight_cons. qlra.
Qed.

Lemma total_weight_pos (c : Centroid) (cs : list Centroid) :
  all_positive (c :: cs) -> 0 < total_weight (c :: cs).
Proof.
  intros H. inversion H as [| ? ? Hc Hcs]; subst.
  apply total_weight_nonneg in Hcs. rewrite total_weight_cons. qlra.
Qed.

(** [ascending] is the strong form of sortedness: every earlier mean is below
    every later one. *)
Lemma ascending_above_all (c : Centroid) (cs : list Centroid) :
  ascending (c :: cs) -> Forall (fun c' => mean c < mean c') cs.
Proof.
  revert c. induction cs as [| c' cs IH]; intros c [Habove Hasc]; constructor.
  - exact Habove.
  - cbn in Habove. specialize (IH c' Hasc).
    eapply Forall_impl; [| exact IH]. cbn. intros a Ha. qlra.
Qed.

Lemma ascending_strongly_sorted (cs : list Centroid) :
  ascending cs -> StronglySorted (fun a b => mean a < mean b) cs.
Proof.
  induction cs as [| c cs IH]; intros Hasc; constructor.
  - apply IH. apply Hasc.
  - apply ascending_above_all. exact Hasc.
Qed.

(** *** Absorbing a value into a centroid *)

Lemma absorb_into_weight (c : Centroid) (x w : Q) :
  weight (absorb_into c x w) = weight c + w.
Proof. reflexivity. Qed.

(** The new mean is a convex combination of the old mean and the value. *)
Lemma absorb_into_mean (c : Centroid) (x w : Q) :
  0 < weight c -> 0 < w ->
  mean (absorb_into c x w) * (weight c + w) == mean c * weight c + x * w.
Proof.
  intros Hc Hw. cbn [absorb_into mean]. field. qlra.
Qed.

Lemma absorb_into_up (c : Centroid) (x w : Q) :
  0 < weight c -> 0 < w -> mean c < x ->
  mean c < mean (absorb_into c x w) /\ mean (absorb_into c x w) < x.
Proof.
  intros Hc Hw Hx. pose proof (absorb_into_mean c x w Hc Hw) as Heq.
  set (m' := mean (absorb_into c x w)) in *. clearbody m'. split; qnra.
Qed.

Lemma absorb_into_down (c : Centroid) (x w : Q) :
  0 < weight c -> 0 < w -> x < mean c ->
  x < mean (absorb_into c x w) /\ mean (absorb_into c x w) < mean c.
Proof.
  intros Hc Hw Hx. pose proof (absorb_into_mean c x w Hc Hw) as Heq.
  set (m' := mean (absorb_into c x w)) in *. clearbody m'. split; qnra.
Qed.

Lemma absorb_into_tie (c : Centroid) (x w : Q) :
  0 < weight c -> 0 < w -> x == mean c ->
  mean (absorb_into c x w) == mean c.
Proof.
  intros Hc Hw Hx. pose proof (absorb_into_mean c x w Hc Hw) as Heq.
  set (m' := mean (absorb_into c x w)) in *. clearbody m'. qnra.
Qed.

Lemma absorb_into_positive (c : Centroid) (x w : Q) :
  0 < weight c -> 0 < w -> 0 < weight (absorb_into c x w).
Proof. intros Hc Hw. cbn. qlra. Qed.

(** *** One absorption step *)

Section Placement.

Variable P : Policy.
Variables delta N : Q.

(** Whatever the policy answers, a value strictly between two neighbours ends
    in one of three shapes. *)
Lemma between_cases (cum : Q) (l r : Centroid) (x w : Q) :
  between P delta N cum l r x w = [absorb_into l x w; r] \/
  between P delta N cum l r x w = [l; absorb_into r x w] \/
  between P delta N cum l r x w = [l; mkCentroid x w; r].
Proof.
  unfold between.
  destruct (x - mean l ?= mean r - x), (fits P delta N cum l w),
    (fits P delta N (cum + weight r) r w), (prefer_left P l r); auto.
Qed.

Lemma head_from_above (lo m : Q) (cs : list Centroid) :
  lo < m -> head_from m cs -> above lo cs.
Proof. destruct cs as [| c cs]; cbn; [tauto | intros; qlra]. Qed.

Lemma between_well_formed (cum : Q) (l r : Centroid) (rest : list Centroid) (x w : Q) :
  0 < w -> well_formed (l :: r :: rest) -> mean l < x -> x < mean r ->
  well_formed (between P delta N cum l r x w ++ rest) /\
  head_from (mean l) (between P delta N cum l r x w ++ rest).
Proof.
  intros Hw [Hpos Hasc] Hlx Hxr.
  inversion Hpos as [| ? ? Hl Hpos']; subst.
  inversion Hpos' as [| ? ? Hr Hrest]; subst.
  destruct Hasc as (Hlr & Hr_rest & Hasc_rest). cbn in Hlr.
  destruct (absorb_into_up l x w Hl Hw Hlx) as [Hl1 Hl2].
  destruct (absorb_into_down r x w Hr Hw Hxr) as [Hr1 Hr2].
  destruct (between_cases cum l r x w) as [-> | [-> | ->]]; cbn [app].
  - split; [split |].
    + repeat constructor; try assumption. apply absorb_into_positive; assumption.
    + cbn [ascending above]. repeat split; try assumption. qlra.
    + cbn [head_from]. qlra.
  - split; [split |].
    + repeat constructor; try assumption. apply absorb_into_positive; assumption.
    + cbn [ascending above]. repeat split; try assumption; [qlra |].
      apply above_weaken with (mean r); [qlra | exact Hr_rest].
    + cbn [head_from]. qlra.
  - split; [split |].
    + repeat constructor; assumption.
    + cbn [ascending above mean]. repeat split; assumption.
    + cbn [head_from]. qlra.
Qed.

Lemma place_after_well_formed (rest : list Centroid) :
  forall (cum : Q) (l : Centroid) (x w : Q),
    0 < w -> well_formed (l :: rest) -> mean l < x ->
    well_formed (place_after P delta N cum l rest x w) /\
    head_from (mean l) (place_after P delta N cum l rest x w).
Proof.
  induction rest as [| r rest IH]; intros cum l x w Hw Hwf Hlx;
    cbn [place_after].
  - destruct Hwf as [Hpos _]. inversion Hpos as [| ? ? Hl _]; subst.
    destruct (absorb_into_up l x w Hl Hw Hlx) as [Hl1 Hl2].
    destruct (fits P delta N cum l w).
    + split; [split |].
      * repeat constructor. apply absorb_into_positive; assumption.
      * cbn [ascending above]. tauto.
      * cbn [head_from]. qlra.
    + split; [split |].
      * repeat constructor; assumption.
      * cbn [ascending above mean]. tauto.
      * cbn [head_from]. qlra.
  - destruct (Qcompare_spec x (mean r)) as [Heq | Hlt | Hgt].
    + (* a tie with [r]: merged *)
      destruct Hwf as [Hpos (Hlr & Hr_rest & Hasc_rest)]. cbn in Hlr.
      inversion Hpos as [| ? ? Hl Hpos']; subst.
      inversion Hpos' as [| ? ? Hr Hrest]; subst.
      pose proof (absorb_into_tie r x w Hr Hw Heq) as Htie.
      split; [split |].
      * repeat constructor; try assumption. apply absorb_into_positive; assumption.
      * cbn [ascending above]. repeat split; try assumption; [qlra |].
        apply above_weaken with (mean r); [qlra | exact Hr_rest].
      * cbn [head_from]. qlra.
    + apply between_well_formed; assumption.
    + destruct Hwf as [Hpos (Hlr & Hasc)]. cbn in Hlr.
      inversion Hpos as [| ? ? Hl Hpos']; subst.
      destruct (IH (cum + weight r) r x w Hw (conj Hpos' Hasc) Hgt)
        as [[Hpos'' Hasc''] Hhead].
      split; [split |].
      * constructor; assumption.
      * cbn [ascending]. split; [| exact Hasc''].
        apply head_from_above with (mean r); assumption.
      * cbn [head_from]. qlra.
Qed.

Lemma place_well_formed (cs : list Centroid) (x w : Q) :
  0 < w -> well_formed cs -> well_formed (place P delta N cs x w).
Proof.
  intros Hw Hwf. destruct cs as [| c rest]; cbn [place].
  - split; [repeat constructor; exact Hw | cbn; tauto].
  - destruct Hwf as [Hpos Hasc].
    inversion Hpos as [| ? ? Hc Hrest]; subst.
    destruct (Qcompare_spec x (mean c)) as [Heq | Hlt | Hgt].
    + pose proof (absorb_into_tie c x w Hc Hw Heq) as Htie.
      destruct Hasc as [Habove Hasc]. split.
      * constructor; [apply absorb_into_positive; assumption | exact Hrest].
      * split; [| exact Hasc].
        apply above_weaken with (mean c); [qlra | exact Habove].
    + destruct (absorb_into_down c x w Hc Hw Hlt) as [H1 H2].
      destruct Hasc as [Habove Hasc].
      destruct (fits P delta N (weight c) c w).
      * split.
        -- constructor; [apply absorb_into_positive; assumption | exact Hrest].
        -- split; [| exact Hasc].
           apply above_weaken with (mean c); [qlra | exact Habove].
      * split.
        -- constructor; [exact Hw | exact Hpos].
        -- cbn [ascending above mean]. repeat split; assumption.
    + apply place_after_well_formed; [exact Hw | split; assumption | exact Hgt].
Qed.

(** Mass: one absorption adds exactly the weight of the value. *)
Lemma between_total (cum : Q) (l r : Centroid) (x w : Q) :
  total_weight (between P delta N cum l r x w) == weight l + weight r + w.
Proof.
  destruct (between_cases cum l r x w) as [-> | [-> | ->]]; cbn; qlra.
Qed.

Lemma place_after_total (rest : list Centroid) :
  forall (cum : Q) (l : Centroid) (x w : Q),
    total_weight (place_after P delta N cum l rest x w)
    == weight l + total_weight rest + w.
Proof.
  induction rest as [| r rest IH]; intros cum l x w; cbn [place_after].
  - destruct (fits P delta N cum l w); cbn; qlra.
  - destruct (x ?= mean r).
    + rewrite !total_weight_cons, absorb_into_weight. qlra.
    + rewrite total_weight_app, between_total, total_weight_cons. qlra.
    + rewrite !total_weight_cons, IH. qlra.
Qed.

Lemma place_total (cs : list Centroid) (x w : Q) :
  total_weight (place P delta N cs x w) == total_weight cs + w.
Proof.
  destruct cs as [| c rest]; cbn [place].
  - cbn. qlra.
  - destruct (x ?= mean c).
    + rewrite !total_weight_cons, absorb_into_weight. qlra.
    + destruct (fits P delta N (weight c) c w);
        rewrite !total_weight_cons; cbn [weight absorb_into]; qlra.
    + rewrite place_after_total, total_weight_cons. qlra.
Qed.

End Placement.

(** *** Absorption, rebuild, insertion and merge *)

Section Operations.

Variable P : Policy.

Lemma absorb_well_formed (delta : Q) (cs : list Centroid) (x w : Q) :
  0 < w -> well_formed cs -> well_formed (absorb P delta cs x w).
Proof. apply place_well_formed. Qed.

Lemma absorb_total (delta : Q) (cs : list Centroid) (x w : Q) :
  total_weight (absorb P delta cs x w) == total_weight cs + w.
Proof. apply place_total. Qed.

Lemma reabsorb_well_formed (delta : Q) (cs : list Centroid) :
  forall acc,
    all_positive cs -> well_formed acc ->
    well_formed
      (fold_left (fun acc c => absorb P delta acc (mean c) (weight c)) cs acc).
Proof.
  induction cs as [| c cs IH]; intros acc Hpos Hacc; cbn [fold_left].
  - exact Hacc.
  - inversion Hpos as [| ? ? Hc Hcs]; subst.
    apply IH; [exact Hcs |]. apply absorb_well_formed; assumption.
Qed.

Lemma reabsorb_total (delta : Q) (cs : list Centroid) :
  forall acc,
    total_weight
      (fold_left (fun acc c => absorb P delta acc (mean c) (weight c)) cs acc)
    == total_weight acc + total_weight cs.
Proof.
  induction cs as [| c cs IH]; intros acc; cbn [fold_left].
  - cbn. qlra.
  - rewrite IH, absorb_total, total_weight_cons. qlra.
Qed.

Lemma rebuild_well_formed (delta : Q) (cs : list Centroid) :
  all_positive cs -> well_formed (rebuild P delta cs).
Proof.
  intros Hpos. apply reabsorb_well_formed; [exact Hpos |].
  split; [constructor | exact I].
Qed.

Lemma rebuild_total (delta : Q) (cs : list Centroid) :
  total_weight (rebuild P delta cs) == total_weight cs.
Proof. unfold rebuild. rewrite reabsorb_total. cbn. qlra. Qed.

Lemma insert_well_formed (delta : Q) (cs : list Centroid) (x w : Q) :
  0 < w -> well_formed cs -> well_formed (insert P delta cs x w).
Proof.
  intros Hw Hwf. unfold insert.
  pose proof (absorb_well_formed delta cs x w Hw Hwf) as Habs.
  destruct (threshold P delta <? List.length (absorb P delta cs x w))%nat.
  - apply rebuild_well_formed. apply Habs.
  - exact Habs.
Qed.

Lemma insert_total (delta : Q) (cs : list Centroid) (x w : Q) :
  total_weight (insert P delta cs x w) == total_weight cs + w.
Proof.
  unfold insert.
  destruct (threshold P delta <? List.length (absorb P delta cs x w))%nat.
  - rewrite rebuild_total. apply absorb_total.
  - apply absorb_total.
Qed.

Lemma insert_by_weight_positive (c : Centroid) (cs : list Centroid) :
  0 < weight c -> all_positive cs -> all_positive (insert_by_weight c cs).
Proof.
  intros Hc. induction 1 as [| c' cs Hc' Hcs IH]; cbn [insert_by_weight].
  - repeat constructor. exact Hc.
  - destruct (Qle_bool (weight c') (weight c)).
    + repeat constructor; assumption.
    + constructor; assumption.
Qed.

Lemma weight_descending_positive (cs : list Centroid) :
  all_positive cs -> all_positive (weight_descending cs).
Proof.
  induction 1 as [| c cs Hc Hcs IH]; cbn [weight_descending fold_right].
  - constructor.
  - apply insert_by_weight_positive; assumption.
Qed.

Lemma reinsert_well_formed (delta : Q) (cs : list Centroid) :
  forall acc,
    all_positive cs -> well_formed acc ->
    well_formed
      (fold_left (fun acc c => insert P delta acc (mean c) (weight c)) cs acc).
Proof.
  induction cs as [| c cs IH]; intros acc Hpos Hacc; cbn [fold_left].
  - exact Hacc.
  - inversion Hpos as [| ? ? Hc Hcs]; subst.
    apply IH; [exact Hcs |]. apply insert_well_formed; assumption.
Qed.

Lemma merge_well_formed (d1 d2 : Digest) :
  well_formed (centroids d1) -> well_formed (centroids d2) ->
  well_formed (centroids (merge P d1 d2)).
Proof.
  intros H1 [H2 _]. cbn [merge centroids].
  apply reinsert_well_formed; [| exact H1].
  apply weight_descending_positive. exact H2.
Qed.

Lemma update_well_formed (d : Digest) (x w : float64) :
  well_formed (centroids d) -> well_formed (centroids (snd (update P d x w))).
Proof.
  intros Hwf. unfold update.
  destruct x as [xv | | |]; try exact Hwf.
  destruct w as [wv | | |]; try exact Hwf.
  destruct (Qltb 0 wv) eqn:Hw; [| exact Hwf].
  apply Qltb_lt in Hw. cbn [snd centroids].
  apply insert_well_formed; assumption.
Qed.

Lemma new_well_formed (delta : float64) (d : Digest) :
  new delta = Ok d -> well_formed (centroids d) /\ 0 < compression d.
Proof.
  unfold new. destruct delta as [dv | | |]; try discriminate.
  destruct (Qltb 0 dv) eqn:Hd; [| discriminate].
  intros [= <-]. apply Qltb_lt in Hd.
  split; [split; [constructor | exact I] | exact Hd].
Qed.

Lemma update_compression (d : Digest) (x w : float64) :
  compression (snd (update P d x w)) = compression d.
Proof.
  unfold update. destruct x, w; try reflexivity.
  destruct (Qltb 0 q0); reflexivity.
Qed.

(** The invariant of every reachable state. *)
Lemma reachable_well_formed (d : Digest) :
  reachable P d -> well_formed (centroids d) /\ 0 < compression d.
Proof.
  induction 1 as [delta d Hnew | d x w _ [IHwf IHc] | d1 d2 _ [IH1 IHc1] _ [IH2 _]].
  - exact (new_well_formed delta d Hnew).
  - split; [apply update_well_formed; exact IHwf |].
    rewrite update_compression. exact IHc.
  - split; [apply merge_well_formed; assumption | exact IHc1].
Qed.

Lemma update_valid (d : Digest) (x w : Q) :
  0 < w ->
  update P d (Finite x) (Finite w)
  = (Ok tt, mkDigest (compression d) (insert P (compression d) (centroids d) x w)).
Proof.
  intros Hw. unfold update. apply Qltb_lt in Hw. rewrite Hw. reflexivity.
Qed.

Lemma feed_total (xs : list Q) :
  forall d,
    total_weight (centroids (feed P d xs))
    == total_weight (centroids d) + inject_Z (Z.of_nat (List.length xs)).
Proof.
  induction xs as [| x xs IH]; intros d.
  - change (feed P d []) with d.
    change (inject_Z (Z.of_nat (List.length (@nil Q)))) with 0. qlra.
  - change (feed P d (x :: xs)) with (feed P (snd (update1 P d (Finite x))) xs).
    rewrite IH. unfold update1. rewrite update_valid by reflexivity.
    cbn [snd centroids]. rewrite insert_total.
    cbn [List.length]. rewrite Nat2Z.inj_succ. unfold Z.succ.
    rewrite inject_Z_plus. change (inject_Z 1) with 1. qlra.
Qed.

Lemma feed_reachable (xs : list Q) :
  forall d, reachable P d -> reachable P (feed P d xs).
Proof.
  induction xs as [| x xs IH]; intros d Hd; [exact Hd |].
  change (feed P d (x :: xs)) with (feed P (snd (update1 P d (Finite x))) xs).
  apply IH. unfold update1. apply reach_update. exact Hd.
Qed.

End Operations.

(** Every pair of positions of a strongly sorted sequence is ordered. *)
Lemma strongly_sorted_nth (cs : list Centroid) :
  StronglySorted (fun a b => mean a < mean b) cs ->
  forall (i j : nat) (ci cj : Centroid),
    (i < j)%nat -> nth_error cs i = Some ci -> nth_error cs j = Some cj ->
    mean ci < mean cj.
Proof.
  induction 1 as [| c cs Hs IH Hall]; intros i j ci cj Hij Hi Hj.
  - destruct i; discriminate.
  - destruct j as [| j]; [lia |]. cbn in Hj.
    destruct i as [| i]; cbn in Hi.
    + injection Hi as <-. rewrite Forall_forall in Hall.
      apply Hall. eapply nth_error_In. exact Hj.
    + apply (IH i j); [lia | assumption | assumption].
Qed.

Lemma sample_digest_reachable : reachable sample_policy sample_digest.
Proof.
  apply feed_reachable. apply (reach_new _ (Finite (1 # 10))). reflexivity.
Qed.

Example sample_digest_centroids :
  centroids sample_digest
  = [mkCentroid 1 1; absorb_into (mkCentroid 2 1) 2 1; mkCentroid 3 1].
Proof. reflexivity. Qed.

(** C7. In every state reachable by [new], [update] and [merge] the centroid
    sequence is strictly ascending in the mean: every earlier centroid has a
    smaller mean than every later one, so no two means are equal; weights stay
    positive.  The invariant is kept by each operation, the absorption of a
    value into an existing centroid included. *)
Theorem centroids_strictly_ascending (P : Policy) (d : Digest)
  (Hreach : reachable P d) :
  StronglySorted (fun a b => mean a < mean b) (centroids d) /\
  (forall (i j : nat) (ci cj : Centroid),
     (i < j)%nat ->
     nth_error (centroids d) i = Some ci -> nth_error (centroids d) j = Some cj ->
     mean ci < mean cj) /\
  Forall (fun c => 0 < weight c) (centroids d) /\
  (forall x w,
     StronglySorted (fun a b => mean a < mean b)
       (centroids (snd (update P d x w)))) /\
  (forall d', reachable P d' ->
     StronglySorted (fun a b => mean a < mean b) (centroids (merge P d d'))).
Proof.
  destruct (reachable_well_formed P d Hreach) as [[Hpos Hasc] _].
  pose proof (ascending_strongly_sorted _ Hasc) as Hsorted.
  split; [exact Hsorted |].
  split; [exact (strongly_sorted_nth _ Hsorted) |].
  split; [exact Hpos |].
  split.
  - intros x w. apply ascending_strongly_sorted.
    apply (update_well_formed P d x w). split; assumption.
  - intros d' Hd'. apply ascending_strongly_sorted.
    destruct (reachable_well_formed P d' Hd') as [Hwf' _].
    apply (merge_well_formed P d d'); [split; assumption | exact Hwf'].
Qed.

Lemma centroids_strictly_ascending_witness :
  reachable sample_policy sample_digest /\
  StronglySorted (fun a b => mean a < mean b) (centroids sample_digest).
Proof.
  split; [exact sample_digest_reachable |].
  exact (proj1 (centroids_strictly_ascending sample_policy sample_digest
                  sample_digest_reachable)).
Defined.

(** C2. A digest created by [new(compression)] with a positive compression
    has total weight [0]; after [n] calls of [update] with unit weight its total
    weight is [n]; and every valid [update(x, w)] succeeds and adds exactly [w]
    to the total weight. *)
Theorem mass_conservation (P : Policy) (delta : Q) (Hdelta : 0 < delta) :
  exists d0,
    new (Finite delta) = Ok d0 /\
    total_weight (centroids d0) == 0 /\
    (forall xs : list Q,
       total_weight (centroids (feed P d0 xs))
       == inject_Z (Z.of_nat (List.length xs))) /\
    (forall (d : Digest) (x w : Q),
       0 < w ->
       fst (update P d (Finite x) (Finite w)) = Ok tt /\
       total_weight (centroids (snd (update P d (Finite x) (Finite w))))
       == total_weight (centroids d) + w).
Proof.
  exists (mkDigest delta []).
  split.
  - unfold new. apply Qltb_lt in Hdelta. rewrite Hdelta. reflexivity.
  - split; [reflexivity |]. split.
    + intros xs. rewrite feed_total. cbn. qlra.
    + intros d x w Hw. rewrite update_valid by exact Hw. cbn [fst snd centroids].
      split; [reflexivity | apply insert_total].
Qed.

Lemma mass_conservation_witness :
  0 < 1 # 10 /\ total_weight (centroids sample_digest) == 4.
Proof.
  split; [reflexivity |].
  destruct (mass_conservation sample_policy (1 # 10) eq_refl)
    as (d0 & Hnew & _ & Hfeed & _).
  injection Hnew as <-.
  exact (Hfeed [1; 3; 2; 2]).
Defined.

(** *** The queries *)

Lemma Qdiv_le_mono (a b n : Q) : 0 < n -> a <= b -> a / n <= b / n.
Proof.
  intros Hn Hab. unfold Qdiv. apply Qmult_le_compat_r; [exact Hab |].
  apply Qlt_le_weak, Qinv_lt_0_compat. exact Hn.
Qed.

(** The interpolation fraction between two means. *)
Lemma fraction_bounds (m m' x : Q) :
  m <= x -> x < m' -> 0 <= (x - m) / (m' - m) /\ (x - m) / (m' - m) <= 1.
Proof.
  intros H1 H2. split.
  - apply Qle_shift_div_l; qlra.
  - apply Qle_shift_div_r; qlra.
Qed.

Lemma fraction_mono (m m' x1 x2 : Q) :
  m <= x1 -> x1 <= x2 -> x2 < m' ->
  (x1 - m) / (m' - m) <= (x2 - m) / (m' - m).
Proof. intros H1 H2 H3. apply Qdiv_le_mono; qlra. Qed.

Lemma cdf_walk_bounds (rest : list Centroid) :
  forall (N cum : Q) (c : Centroid) (x : Q),
    0 < N -> all_positive rest -> mean c <= x ->
    cum / N <= cdf_walk N cum c rest x /\
    cdf_walk N cum c rest x <= (cum + total_weight rest) / N.
Proof.
  induction rest as [| c' rest IH]; intros N cum c x HN Hpos Hx;
    cbn [cdf_walk].
  - split; [qlra |]. apply Qdiv_le_mono; [exact HN | cbn; qlra].
  - inversion Hpos as [| ? ? Hc' Hrest]; subst.
    pose proof (total_weight_nonneg rest Hrest) as Hsum.
    rewrite total_weight_cons.
    destruct (Qltb x (mean c')) eqn:E.
    + apply Qltb_lt in E.
      destruct (fraction_bounds (mean c) (mean c') x Hx E) as [Hf0 Hf1].
      set (f := (x - mean c) / (mean c' - mean c)) in *. clearbody f.
      split; apply Qdiv_le_mono; try exact HN; qnra.
    + apply Qltb_ge in E.
      destruct (IH N (cum + weight c') c' x HN Hrest E) as [Hlo Hhi].
      split.
      * eapply Qle_trans; [| exact Hlo]. apply Qdiv_le_mono; [exact HN | qlra].
      * eapply Qle_trans; [exact Hhi |]. apply Qdiv_le_mono; [exact HN | qlra].
Qed.

Lemma cdf_walk_mono (rest : list Centroid) :
  forall (N cum : Q) (c : Centroid) (x1 x2 : Q),
    0 < N -> all_positive rest -> mean c <= x1 -> x1 <= x2 ->
    cdf_walk N cum c rest x1 <= cdf_walk N cum c rest x2.
Proof.
  induction rest as [| c' rest IH]; intros N cum c x1 x2 HN Hpos Hx1 Hx12;
    cbn [cdf_walk].
  - qlra.
  - inversion Hpos as [| ? ? Hc' Hrest]; subst.
    destruct (Qltb x1 (mean c')) eqn:E1; destruct (Qltb x2 (mean c')) eqn:E2.
    + apply Qltb_lt in E1, E2.
      pose proof (fraction_mono (mean c) (mean c') x1 x2 Hx1 Hx12 E2) as Hf.
      set (f1 := (x1 - mean c) / (mean c' - mean c)) in *.
      set (f2 := (x2 - mean c) / (mean c' - mean c)) in *.
      clearbody f1 f2. apply Qdiv_le_mono; [exact HN | qnra].
    + apply Qltb_lt in E1. apply Qltb_ge in E2.
      destruct (fraction_bounds (mean c) (mean c') x1 Hx1 E1) as [Hf0 Hf1].
      destruct (cdf_walk_bounds rest N (cum + weight c') c' x2 HN Hrest E2)
        as [Hlo _].
      eapply Qle_trans; [| exact Hlo].
      set (f := (x1 - mean c) / (mean c' - mean c)) in *. clearbody f.
      apply Qdiv_le_mono; [exact HN | qnra].
    + apply Qltb_ge in E1. apply Qltb_lt in E2. qlra.
    + apply Qltb_ge in E1. apply IH; assumption.
Qed.

Lemma cdf_range (d : Digest) (x : Q) :
  all_positive (centroids d) -> 0 <= cdf d x /\ cdf d x <= 1.
Proof.
  intros Hpos. unfold cdf. destruct (centroids d) as [| c rest] eqn:Ecs.
  - split; qlra.
  - destruct (Qltb x (mean c)) eqn:E1; [split; qlra |].
    destruct (Qltb (mean (last rest c)) x) eqn:E2; [split; qlra |].
    apply Qltb_ge in E1.
    pose proof (total_weight_pos c rest Hpos) as HN.
    inversion Hpos as [| ? ? Hc Hrest]; subst.
    destruct (cdf_walk_bounds rest (total_weight (c :: rest)) (weight c) c x
                HN Hrest E1) as [Hlo Hhi].
    split.
    + eapply Qle_trans; [| exact Hlo]. apply Qle_shift_div_l; qlra.
    + eapply Qle_trans; [exact Hhi |].
      apply Qle_shift_div_r; [exact HN |]. rewrite total_weight_cons. qlra.
Qed.

Lemma cdf_mono (d : Digest) (x1 x2 : Q) :
  all_positive (centroids d) -> x1 <= x2 -> cdf d x1 <= cdf d x2.
Proof.
  intros Hpos Hx.
  pose proof (cdf_range d x1 Hpos) as [H1lo H1hi].
  pose proof (cdf_range d x2 Hpos) as [H2lo H2hi].
  unfold cdf in *. destruct (centroids d) as [| c rest] eqn:Ecs; [qlra |].
  destruct (Qltb x1 (mean c)) eqn:E1; [exact H2lo |].
  apply Qltb_ge in E1.
  destruct (Qltb x2 (mean c)) eqn:E2; [apply Qltb_lt in E2; qlra |].
  destruct (Qltb (mean (last rest c)) x2) eqn:E4; [exact H1hi |].
  destruct (Qltb (mean (last rest c)) x1) eqn:E3.
  - apply Qltb_lt in E3. apply Qltb_ge in E4. qlra.
  - pose proof (total_weight_pos c rest Hpos) as HN.
    inversion Hpos as [| ? ? Hc Hrest]; subst.
    apply cdf_walk_mono; assumption.
Qed.

Lemma last_cons (c c' : Centroid) (rest : list Centroid) :
  last (c' :: rest) c = last rest c'.
Proof.
  revert c c'. induction rest as [| c'' rest IH]; intros c c'; [reflexivity |].
  change (last (c' :: c'' :: rest) c) with (last (c'' :: rest) c).
  change (last (c'' :: rest) c') with
    (match rest with [] => c'' | _ :: _ => last rest c' end).
  rewrite IH. destruct rest as [| c3 rest]; [reflexivity |].
  symmetry. apply (IH c' c'').
Qed.

Lemma ascending_last (rest : list Centroid) :
  forall c, ascending (c :: rest) -> mean c <= mean (last rest c).
Proof.
  induction rest as [| c' rest IH]; intros c Hasc; [cbn; qlra |].
  destruct Hasc as [Hlt Hasc']. cbn in Hlt.
  rewrite last_cons. specialize (IH c' Hasc'). qlra.
Qed.

(** The quantile lies between the lowest and the highest mean. *)
Lemma quantile_walk_in_support (rest : list Centroid) :
  forall (t cum : Q) (c : Centroid),
    well_formed (c :: rest) -> cum <= t ->
    mean c <= quantile_walk t cum c rest /\
    quantile_walk t cum c rest <= mean (last rest c).
Proof.
  induction rest as [| c' rest IH]; intros t cum c [Hpos Hasc] Ht;
    cbn [quantile_walk].
  - cbn. split; qlra.
  - inversion Hpos as [| ? ? Hc Hpos']; subst.
    inversion Hpos' as [| ? ? Hc' Hrest]; subst.
    destruct Hasc as [Hcc' Hasc']. cbn in Hcc'.
    pose proof (ascending_last rest c' Hasc') as Hlast.
    rewrite last_cons.
    destruct (Qle_bool t (cum + weight c')) eqn:E.
    + apply Qle_bool_iff in E.
      assert (Hf0 : 0 <= (t - cum) / weight c') by (apply Qle_shift_div_l; qlra).
      assert (Hf1 : (t - cum) / weight c' <= 1) by (apply Qle_shift_div_r; qlra).
      set (f := (t - cum) / weight c') in *. clearbody f.
      split; qnra.
    + apply Qle_bool_gt in E.
      destruct (IH t (cum + weight c') c' (conj Hpos' Hasc') ltac:(qlra))
        as [Hlo Hhi].
      split; qlra.
Qed.

Lemma quantile_value_in_support (c : Centroid) (rest : list Centroid) (q : Q) :
  well_formed (c :: rest) ->
  mean c <= quantile_value (c :: rest) q /\
  quantile_value (c :: rest) q <= mean (last rest c).
Proof.
  intros Hwf. unfold quantile_value.
  destruct (Qle_bool (q * total_weight (c :: rest)) (weight c)) eqn:E.
  - pose proof (ascending_last rest c (proj2 Hwf)). split; qlra.
  - apply Qle_bool_gt in E.
    apply quantile_walk_in_support; [exact Hwf | qlra].
Qed.

Lemma quantile_valid (d : Digest) (q : Q) :
  0 <= q -> q <= 1 -> quantile d (Finite q) = Ok (quantile_value (centroids d) q).
Proof.
  intros H0 H1. unfold quantile.
  apply Qle_bool_iff in H0, H1. rewrite H0, H1. reflexivity.
Qed.

Example sample_digest_cdf :
  map (fun x => Qred (cdf sample_digest x)) [0; 1; 3 # 2; 2; 3; 4]
  = [0; 1 # 4; 1 # 2; 3 # 4; 1; 1].
Proof. vm_compute. reflexivity. Qed.

Example sample_digest_quantile :
  map (fun q => v <- quantile sample_digest q ;; Ok (Qred v))
    [Finite 0; Finite (1 # 2); Finite 1; Finite 2; NaN]
  = [Ok 1; Ok (3 # 2); Ok 3; Err InvalidArgument; Err InvalidArgument].
Proof. vm_compute. reflexivity. Qed.

(** A digest that holds a single value answers [quantile(1/2)] with that
    value, where [cdf] is already [1]. *)
Example round_trip_single_value :
  quantile (feed sample_policy (mkDigest (1 # 10) []) [5]) (Finite (1 # 2)) = Ok 5 /\
  cdf (feed sample_policy (mkDigest (1 # 10) []) [5]) 5 = 1.
Proof. split; reflexivity. Qed.

(** C1. In every reachable state [cdf] takes its values in [[0,1]] and is
    monotone: for [x1 < x2], [0 <= cdf(x1) <= cdf(x2) <= 1].  For every [q] in
    [[0,1]], [quantile(q)] returns a value, which lies between the lowest and
    the highest centroid mean when there is a centroid.  [cdf] is a function of
    the centroid sequence alone, and asking again gives the same answer and
    leaves the state as it was. *)
Theorem cdf_monotone_within_unit_interval (P : Policy) (d : Digest)
  (Hreach : reachable P d) :
  (forall x1 x2 : Q,
     x1 < x2 -> 0 <= cdf d x1 /\ cdf d x1 <= cdf d x2 /\ cdf d x2 <= 1) /\
  (forall q : Q,
     0 <= q -> q <= 1 ->
     exists v : Q,
       quantile d (Finite q) = Ok v /\
       (forall c rest, centroids d = c :: rest ->
          mean c <= v /\ v <= mean (last rest c))) /\
  (forall (d' : Digest) (x : Q), centroids d' = centroids d -> cdf d' x = cdf d x) /\
  (forall x : Q,
     run P d [CallCdf x; CallCdf x] = ([Value (cdf d x); Value (cdf d x)], d)).
Proof.
  destruct (reachable_well_formed P d Hreach) as [[Hpos Hasc] _].
  split; [| split; [| split]].
  - intros x1 x2 Hlt.
    destruct (cdf_range d x1 Hpos) as [H1 _].
    destruct (cdf_range d x2 Hpos) as [_ H2].
    repeat split; try assumption.
    apply cdf_mono; [exact Hpos | qlra].
  - intros q Hq0 Hq1. exists (quantile_value (centroids d) q).
    split; [apply quantile_valid; assumption |].
    intros c rest Hcs. rewrite Hcs. apply quantile_value_in_support.
    rewrite <- Hcs. split; assumption.
  - intros d' x Hcs. unfold cdf. rewrite Hcs. reflexivity.
  - intros x. reflexivity.
Qed.

Lemma cdf_monotone_within_unit_interval_witness :
  reachable sample_policy sample_digest /\
  cdf sample_digest 1 <= cdf sample_digest (3 # 2) /\
  exists v, quantile sample_digest (Finite (1 # 2)) = Ok v /\ 1 <= v.
Proof.
  split; [exact sample_digest_reachable |].
  destruct (cdf_monotone_within_unit_interval sample_policy sample_digest
              sample_digest_reachable) as (Hcdf & Hq & _).
  split.
  - exact (proj1 (proj2 (Hcdf 1 (3 # 2) eq_refl))).
  - destruct (Hq (1 # 2)) as (v & Hv & Hsupp); [discriminate | discriminate |].
    exists v. split; [exact Hv |].
    exact (proj1 (Hsupp _ _ eq_refl)).
Defined.

(** *** The round trip through [quantile] and [cdf] *)

Lemma cdf_walk_at_mean (rest : list Centroid) (N cum : Q) (c : Centroid) (x : Q) :
  ascending (c :: rest) -> x == mean c -> cdf_walk N cum c rest x == cum / N.
Proof.
  intros Hasc Hx. destruct rest as [| c' rest]; cbn [cdf_walk]; [reflexivity |].
  destruct Hasc as [Hlt _]. cbn in Hlt.
  assert (E : Qltb x (mean c') = true) by (apply Qltb_lt; qlra).
  rewrite E.
  assert (H0 : x - mean c == 0) by qlra.
  rewrite H0. unfold Qdiv. ring.
Qed.

Lemma round_trip_walk (rest : list Centroid) :
  forall (N cum : Q) (c : Centroid) (t : Q),
    well_formed (c :: rest) -> cum < t -> t <= cum + total_weight rest ->
    cdf_walk N cum c rest (quantile_walk t cum c rest) == t / N.
Proof.
  induction rest as [| c' rest IH]; intros N cum c t Hwf Hlo Hhi.
  - cbn in Hhi. qlra.
  - pose proof Hwf as [Hpos Hasc].
    inversion Hpos as [| ? ? Hc Hpos']; subst.
    inversion Hpos' as [| ? ? Hc' Hrest]; subst.
    destruct Hasc as [Hcc' Hasc']. cbn in Hcc'.
    rewrite total_weight_cons in Hhi.
    cbn [quantile_walk].
    destruct (Qle_bool t (cum + weight c')) eqn:E.
    + apply Qle_bool_iff in E.
      set (y := mean c + (mean c' - mean c) * ((t - cum) / weight c')).
      assert (Hy : (y - mean c) * weight c' == (mean c' - mean c) * (t - cum)).
      { unfold y. field. qlra. }
      cbn [cdf_walk].
      destruct (Qltb y (mean c')) eqn:Ey.
      * assert (Hfrac : weight c' * ((y - mean c) / (mean c' - mean c)) == t - cum).
        { unfold y. field. split; qlra. }
        rewrite Hfrac. apply Qdiv_comp; [ring | reflexivity].
      * apply Qltb_ge in Ey.
        assert (Hyle : y <= mean c') by (clearbody y; qnra).
        assert (Heq : y == mean c') by qlra.
        assert (Ht : t == cum + weight c') by (clearbody y; qnra).
        rewrite (cdf_walk_at_mean rest N (cum + weight c') c' y Hasc' Heq).
        apply Qdiv_comp; [qlra | reflexivity].
    + apply Qle_bool_gt in E.
      pose proof (quantile_walk_in_support rest t (cum + weight c') c'
                    (conj Hpos' Hasc') ltac:(qlra)) as [Hsupp _].
      cbn [cdf_walk].
      assert (Ey : Qltb (quantile_walk t (cum + weight c') c' rest) (mean c') = false)
        by (apply Qltb_ge; exact Hsupp).
      rewrite Ey. apply IH; [split; assumption | exact E | qlra].
Qed.

(** In a well-formed digest the round trip returns [q] itself from the lowest
    centroid's share of the weight on, and that share below it. *)
Lemma round_trip_value (d : Digest) (c : Centroid) (rest : list Centroid) (q : Q) :
  centroids d = c :: rest -> well_formed (c :: rest) -> q <= 1 ->
  (weight c <= q * total_weight (c :: rest) ->
   cdf d (quantile_value (c :: rest) q) == q) /\
  (q * total_weight (c :: rest) <= weight c ->
   cdf d (quantile_value (c :: rest) q) == weight c / total_weight (c :: rest)).
Proof.
  intros Hcs Hwf Hq1.
  pose proof (total_weight_pos c rest (proj1 Hwf)) as HN.
  pose proof (quantile_value_in_support c rest q Hwf) as [Hlo Hhi].
  assert (Hcdf : cdf d (quantile_value (c :: rest) q)
                 = cdf_walk (total_weight (c :: rest)) (weight c) c rest
                     (quantile_value (c :: rest) q)).
  { unfold cdf. rewrite Hcs.
    replace (Qltb (quantile_value (c :: rest) q) (mean c)) with false
      by (symmetry; apply Qltb_ge; exact Hlo).
    replace (Qltb (mean (last rest c)) (quantile_value (c :: rest) q)) with false
      by (symmetry; apply Qltb_ge; exact Hhi).
    reflexivity. }
  rewrite Hcdf. clear Hcdf Hlo Hhi.
  unfold quantile_value.
  set (N := total_weight (c :: rest)) in *.
  assert (Hq : q * N / N == q) by (field; qlra).
  destruct (Qle_bool (q * N) (weight c)) eqn:E.
  - apply Qle_bool_iff in E.
    assert (Hat : cdf_walk N (weight c) c rest (mean c) == weight c / N)
      by (apply cdf_walk_at_mean; [apply Hwf | reflexivity]).
    split; intros H; [| exact Hat].
    rewrite Hat. apply Qeq_trans with (q * N / N); [| exact Hq].
    apply Qdiv_comp; [qlra | reflexivity].
  - apply Qle_bool_gt in E.
    split; intros H; [| qlra].
    apply Qeq_trans with (q * N / N); [| exact Hq].
    apply round_trip_walk; [exact Hwf | exact E |].
    assert (HN' : N == weight c + total_weight rest) by reflexivity.
    qnra.
Qed.

(** No compression comes with a round-trip tolerance below [1/2] that holds
    in every state: a digest that holds the single value [5] answers
    [quantile(1/2)] with [5], where [cdf] is [1]. *)
Lemma round_trip_tolerance_counterexample :
  ~ exists delta tol : Q,
      0 < delta /\ tol < 1 # 2 /\ round_trip_within sample_policy delta tol.
Proof.
  intros (delta & tol & Hdelta & Htol & Hwithin).
  set (d := snd (update1 sample_policy (mkDigest delta []) (Finite 5))).
  assert (Hreach : reachable sample_policy d).
  { unfold d, update1. apply reach_update. apply (reach_new _ (Finite delta)).
    unfold new. apply Qltb_lt in Hdelta. rewrite Hdelta. reflexivity. }
  assert (Hcomp : compression d == delta) by reflexivity.
  specialize (Hwithin d (1 # 2) 5 Hreach Hcomp ltac:(discriminate)
                ltac:(discriminate) eq_refl).
  assert (Hhalf : Qabs (cdf d 5 - (1 # 2)) == 1 # 2) by reflexivity.
  rewrite Hhalf in Hwithin. qlra.
Qed.

(** The round trip in the model.  In a reachable state with at least one
    centroid, for [q]
    in [[0,1]], [quantile(q)] returns a value [v] with [cdf(v) = q] as soon as
    [q N] reaches the weight [w1] of the lowest centroid ([N] the total
    weight), and with [cdf(v) = w1 / N] below that; so
    [|cdf(quantile(q)) - q| <= w1 / N], a bound given by the state.  In the
    other direction [quantile(cdf(x))] need not be [x]. *)
Theorem round_trip_up_to_lowest_centroid (P : Policy) (d : Digest)
  (c : Centroid) (rest : list Centroid) (q : Q)
  (Hreach : reachable P d) (Hcs : centroids d = c :: rest)
  (Hq0 : 0 <= q) (Hq1 : q <= 1) :
  (exists v : Q,
     quantile d (Finite q) = Ok v /\
     (weight c <= q * total_weight (centroids d) -> cdf d v == q) /\
     (q * total_weight (centroids d) <= weight c ->
      cdf d v == weight c / total_weight (centroids d)) /\
     Qabs (cdf d v - q) <= weight c / total_weight (centroids d)) /\
  (exists x v : Q,
     quantile sample_digest (Finite (cdf sample_digest x)) = Ok v /\ ~ v == x).
Proof.
  split.
  - destruct (reachable_well_formed P d Hreach) as [Hwf _].
    rewrite Hcs in Hwf |- *.
    pose proof (total_weight_pos c rest (proj1 Hwf)) as HN.
    assert (Hc : 0 < weight c) by (destruct Hwf as [Hpos _]; inversion Hpos; assumption).
    destruct (round_trip_value d c rest q Hcs Hwf Hq1) as [Hexact Hlow].
    exists (quantile_value (c :: rest) q).
    split; [rewrite quantile_valid by assumption; rewrite Hcs; reflexivity |].
    split; [exact Hexact |]. split; [exact Hlow |].
    assert (Hshare : 0 <= weight c / total_weight (c :: rest))
      by (apply Qle_shift_div_l; qlra).
    apply Qabs_Qle_condition.
    destruct (Qlt_le_dec (q * total_weight (c :: rest)) (weight c)) as [Hlt | Hge].
    + rewrite (Hlow ltac:(qlra)).
      assert (q <= weight c / total_weight (c :: rest))
        by (apply Qle_shift_div_l; qlra).
      split; qlra.
    + rewrite (Hexact Hge). split; qlra.
  - exists 0, 1. split; [reflexivity | discriminate].
Qed.

Lemma round_trip_up_to_lowest_centroid_witness :
  reachable sample_policy sample_digest /\
  0 <= 1 # 2 /\ 1 # 2 <= 1 /\
  exists v : Q,
    quantile sample_digest (Finite (1 # 2)) = Ok v /\ cdf sample_digest v == 1 # 2.
Proof.
  split; [exact sample_digest_reachable |].
  split; [discriminate |]. split; [discriminate |].
  destruct (round_trip_up_to_lowest_centroid sample_policy sample_digest
              _ _ (1 # 2) sample_digest_reachable eq_refl
              ltac:(discriminate) ltac:(discriminate))
    as ((v & Hv & Hexact & _) & _).
  exists v. split; [exact Hv |]. apply Hexact. discriminate.
Defined.

(** *** Malformed inputs *)

Section Calls.

Variable P : Policy.

Lemma step_malformed (d : Digest) (c : Call) :
  malformed c = true -> step P d c = (Failed InvalidArgument, d).
Proof.
  destruct c as [x w | q | x]; cbn [malformed step]; intros H.
  - unfold update. destruct x as [xv | | |]; try reflexivity.
    destruct w as [wv | | |]; try reflexivity.
    cbn in H. destruct (Qltb 0 wv); [discriminate | reflexivity].
  - unfold quantile. destruct q as [qv | | |]; try reflexivity.
    cbn in H. destruct (Qle_bool 0 qv && Qle_bool qv 1); [discriminate | reflexivity].
  - discriminate.
Qed.

Lemma step_well_formed (d : Digest) (c : Call) :
  malformed c = false -> is_failure (fst (step P d c)) = false.
Proof.
  destruct c as [x w | q | x]; cbn [malformed step]; intros H.
  - unfold update. destruct x as [xv | | |]; try discriminate.
    destruct w as [wv | | |]; try discriminate.
    cbn in H. destruct (Qltb 0 wv); [reflexivity | discriminate].
  - unfold quantile. destruct q as [qv | | |]; try discriminate.
    cbn in H. destruct (Qle_bool 0 qv && Qle_bool qv 1); [reflexivity | discriminate].
  - reflexivity.
Qed.

(** Dropping the malformed calls from a run changes neither the final state
    nor the replies to the other calls. *)
Lemma run_skips_malformed (calls : list Call) :
  forall d,
    snd (run P d calls)
    = snd (run P d (filter (fun c => negb (malformed c)) calls)) /\
    filter (fun r => negb (is_failure r)) (fst (run P d calls))
    = fst (run P d (filter (fun c => negb (malformed c)) calls)).
Proof.
  induction calls as [| c calls IH]; intros d; [split; reflexivity |].
  cbn [run filter].
  destruct (malformed c) eqn:Hc; cbn [negb].
  - rewrite (step_malformed d c Hc).
    destruct (run P d calls) as [rs d''] eqn:Hrun.
    cbn [fst snd filter is_failure negb].
    specialize (IH d). rewrite Hrun in IH. exact IH.
  - pose proof (step_well_formed d c Hc) as Hok.
    cbn [run]. destruct (step P d c) as [r d'] eqn:Hstep.
    specialize (IH d').
    destruct (run P d' calls) as [rs d''] eqn:Hrun.
    destruct (run P d' (filter (fun c => negb (malformed c)) calls))
      as [rs' d3] eqn:Hrun'.
    cbn [fst snd] in *. cbn [filter]. rewrite Hok. cbn [negb].
    destruct IH as [-> ->]. split; reflexivity.
Qed.

End Calls.

(** Malformed calls in the model.  [new] with a NaN, infinite or non-positive
    compression, [update] with
    a NaN or infinite value or with a weight that is not a positive finite
    number, and [quantile] with an argument that is not a finite number in
    [[0,1]] all fail with [InvalidArgument]; a failing call leaves the state
    as it was, and a run of calls ends in the same state, with the same
    replies to the other calls, as the run without the failing calls. *)
Theorem malformed_calls_fail_without_effect (P : Policy) :
  (forall delta : float64, positive delta = false -> new delta = Err InvalidArgument) /\
  (forall delta : Q, delta <= 0 -> new (Finite delta) = Err InvalidArgument) /\
  (forall (d : Digest) (x w : float64),
     well_formed_value x = false \/ positive w = false ->
     update P d x w = (Err InvalidArgument, d)) /\
  (forall (d : Digest) (x : float64) (w : Q),
     w <= 0 -> update P d x (Finite w) = (Err InvalidArgument, d)) /\
  (forall (d : Digest) (q : float64),
     unit_interval q = false -> quantile d q = Err InvalidArgument) /\
  (forall (d : Digest) (q : Q),
     q < 0 \/ 1 < q -> quantile d (Finite q) = Err InvalidArgument) /\
  (forall (d : Digest) (c : Call),
     malformed c = true -> step P d c = (Failed InvalidArgument, d)) /\
  (forall (d : Digest) (calls : list Call),
     snd (run P d calls)
     = snd (run P d (filter (fun c => negb (malformed c)) calls)) /\
     filter (fun r => negb (is_failure r)) (fst (run P d calls))
     = fst (run P d (filter (fun c => negb (malformed c)) calls))).
Proof.
  assert (Hupd : forall (d : Digest) (x w : float64),
            well_formed_value x = false \/ positive w = false ->
            update P d x w = (Err InvalidArgument, d)).
  { intros d x w H. unfold update.
    destruct x as [xv | | |]; try reflexivity.
    destruct w as [wv | | |]; try reflexivity.
    destruct H as [H | H]; [discriminate |].
    cbn in H. rewrite H. reflexivity. }
  assert (Hq : forall (d : Digest) (q : float64),
            unit_interval q = false -> quantile d q = Err InvalidArgument).
  { intros d q H. unfold quantile. destruct q as [qv | | |]; try reflexivity.
    cbn in H. rewrite H. reflexivity. }
  assert (Hnew : forall delta : float64,
            positive delta = false -> new delta = Err InvalidArgument).
  { intros delta H. unfold new. destruct delta as [dv | | |]; try reflexivity.
    cbn in H. rewrite H. reflexivity. }
  repeat split.
  - exact Hnew.
  - intros delta Hd. apply Hnew. cbn. apply Qltb_ge. exact Hd.
  - exact Hupd.
  - intros d x w Hw. apply Hupd. right. cbn. apply Qltb_ge. exact Hw.
  - exact Hq.
  - intros d q Hout. apply Hq. cbn.
    destruct Hout as [Hlt | Hgt].
    + replace (Qle_bool 0 q) with false; [reflexivity |].
      symmetry. apply Qle_bool_gt. exact Hlt.
    + replace (Qle_bool q 1) with false; [apply andb_false_r |].
      symmetry. apply Qle_bool_gt. exact Hgt.
  - apply step_malformed.
  - apply run_skips_malformed.
  - apply run_skips_malformed.
Qed.

Example failing_calls_sample :
  run sample_policy sample_digest
    [CallUpdate NaN (Finite 1); CallUpdate (Finite 5) (Finite 0);
     CallQuantile (Finite 2); CallCdf 2; CallUpdate (Finite 5) PosInf]
  = ([Failed InvalidArgument; Failed InvalidArgument; Failed InvalidArgument;
      Value (cdf sample_digest 2); Failed InvalidArgument],
     sample_digest).
Proof. reflexivity. Qed.

End TDigestFacts.
